(** * BusStopAlert: the proximity tracker of [script.js]

    A shallow embedding of the distance computation, the display
    formatting, the station search post-processing, the tracking
    session, the suggestion list, the map layers and the alert sound of
    [script.js], with the properties its specification states about
    them and further properties read off the code.

    Number model.  JavaScript numbers are IEEE-754 doubles.  The
    haversine distance goes through [Math.sin], [Math.cos] and
    [Math.atan2], which ECMAScript leaves implementation-approximated,
    so the geometry (and the tracking session that consumes it) is
    stated over the real numbers.  The formatting functions only
    multiply, divide, compare and round, so they are stated over the
    rationals, where they compute.  In both cases arithmetic is exact:
    no rounding error, no NaN, no infinities.

    The definitions come first, one module for each part of the script;
    the properties follow, in a module of facts for each. *)

From Stdlib Require Import Reals Psatz ZArith QArith Qround Qabs List Bool.
From Stdlib Require Import Strings.String Strings.Ascii.
From Stdlib Require Import Numbers.DecimalString Numbers.DecimalN.
Import ListNotations.

(** * Definitions *)

(** ** Comparisons of real numbers, as tests *)

Definition Rleb (x y : R) : bool := if Rle_dec x y then true else false.

Definition Rltb (x y : R) : bool := if Rlt_dec x y then true else false.

(** ** Great-circle distance ([calculateDistance], [toRad]) *)

Module Geo.

Local Open Scope R_scope.

(** [Math.atan2(y, x)] on finite arguments. *)
Definition Math_atan2 (y x : R) : R :=
  if Rlt_dec 0 x then atan (y / x)
  else if Rlt_dec x 0 then
    if Rle_dec 0 y then atan (y / x) + PI else atan (y / x) - PI
  else if Rlt_dec 0 y then PI / 2
  else if Rlt_dec y 0 then - (PI / 2)
  else 0.

(** [Math.sqrt].  The code applies it to the haversine term [a] and to
    [1 - a], both in [0, 1] for latitudes in range; on a negative
    number [Math.sqrt] is NaN, which the real [sqrt] (0 there) does not
    show. *)
Definition Math_sqrt (x : R) : R := sqrt x.

Definition toRad (degrees : R) : R := degrees * (PI / 180).

Definition calculateDistance (lat1 lon1 lat2 lon2 : R) : R :=
  let R := 6371 in
  let dLat := toRad (lat2 - lat1) in
  let dLon := toRad (lon2 - lon1) in
  let a :=
    sin (dLat / 2) * sin (dLat / 2) +
    cos (toRad lat1) * cos (toRad lat2) *
    sin (dLon / 2) * sin (dLon / 2) in
  let c := 2 * Math_atan2 (Math_sqrt a) (Math_sqrt (1 - a)) in
  let distance := R * c in
  distance.

End Geo.

(** ** Display formatting ([formatDistance], [calculateWalkingTime]) *)

Module Format.

Local Open Scope string_scope.
Local Open Scope Z_scope.

(** Numbers are rationals.  Every finite double is one, and on a double
    the test [km < 1], [Math.round], [Math.floor], the remainder and
    [toFixed] are exact, so they are the code's on the nose; the
    products and quotients [km * 1000] and [km / 5 * 60], which the
    machine rounds to the nearest double, are exact here.  Strings are
    the UTF-8 bytes of the JavaScript strings. *)

(** [x < y] *)
Definition Qltb (x y : Q) : bool := negb (Qle_bool y x).

(** [Math.round]: the nearest integer, a tie going toward plus infinity. *)
Definition Math_round (x : Q) : Z := Qfloor (x + (1 # 2)).


(** The decimal digits of a natural number. *)
Definition decimal (n : Z) : string :=
  NilEmpty.string_of_uint (N.to_uint (Z.to_N n)).

Fixpoint strip_trailing_zeros (s : string) : string :=
  match s with
  | EmptyString => EmptyString
  | String c r =>
      match strip_trailing_zeros r with
      | EmptyString => if Ascii.eqb c "0" then EmptyString else String c EmptyString
      | r' => String c r'
      end
  end.

(** [Number::toString] of ECMAScript on an integral value, as a template
    literal applies it: plain digits below [10^21], and from there on
    the exponent notation [d.ddde+N] over the significant digits. *)
Definition NumberToString (n : Z) : string :=
  let s := if n <? 0 then "-" else "" in
  let ds := decimal (Z.abs n) in
  if Z.abs n <? 10 ^ 21 then s ++ ds
  else
    match strip_trailing_zeros ds with
    | String d rest =>
        s ++ String d (match rest with EmptyString => "" | _ => "." ++ rest end)
          ++ "e+" ++ decimal (Z.of_nat (String.length ds) - 1)
    | EmptyString => s ++ ds
    end.

Fixpoint zeros (k : nat) : string :=
  match k with O => "" | S k' => String "0" (zeros k') end.

(** [Number.prototype.toFixed(f)]: the integer [n] with [n / 10^f]
    nearest to [x] (the larger on a tie), its digits padded to [f + 1]
    places, and a point before the last [f]; at [10^21] and above the
    method hands over to [Number::toString], where every double is an
    integer. *)
Definition toFixed (x : Q) (f : nat) : string :=
  let s := if Qltb x 0 then "-" else "" in
  let x := Qabs x in
  if Qle_bool (inject_Z (10 ^ 21)) x then s ++ NumberToString (Qfloor x)
  else
    let n := Math_round (x * inject_Z (10 ^ Z.of_nat f)) in
    let m := if n =? 0 then "0" else decimal n in
    match f with
    | O => s ++ m
    | _ =>
        let k := String.length m in
        let m := if (k <=? f)%nat then zeros (f + 1 - k) ++ m else m in
        let k := String.length m in
        let a := substring 0 (k - f) m in
        let b := substring (k - f) f m in
        s ++ a ++ "." ++ b
    end.

Definition meters_suffix : string := " מטר".

Definition km_suffix : string := " ק" ++ String "034"%char "מ".

Definition formatDistance (km : Q) : string :=
  if Qltb km 1 then NumberToString (Math_round (km * 1000)) ++ meters_suffix
  else toFixed km 2 ++ km_suffix.


(** *** Notions the properties are stated with *)



Fixpoint has_char (c : ascii) (s : string) : bool :=
  match s with
  | EmptyString => false
  | String d r => Ascii.eqb c d || has_char c r
  end.

End Format.

(** ** What the page shows and does ([showStatus] and the other sinks) *)

(** The [type] argument of [showStatus]. *)
Inductive StatusType := Info | Success | Warning | Error.

(** The calls into the presentation layer and the console; a log is
    the list of them in the order the code makes them.  Each stands for
    the call: what the audio element, the notification service or the
    map does with it is the host's. *)
Inductive Effect :=
| ShowStatus (message : string) (type : StatusType)
| ConsoleLog
| ConsoleWarn
| ConsoleError
| PlayAlertSound
| ShowBrowserNotification
| ArmAlertSound
| RequestNotificationPermission
| UpdateUserMarker
| DrawRouteLine
| FitBounds.

Definition is_status (e : Effect) : bool :=
  match e with ShowStatus _ _ => true | _ => false end.

(** ** Station search ([searchBusStation]) *)

Module Search.

Local Open Scope string_scope.
Local Open Scope list_scope.
Local Open Scope R_scope.

(** A geocoding result.  [lat] and [lon] are the numbers [parseFloat]
    reads from the fields; [display_name] is [None] when the field is
    missing, in which case [result.display_name.toLowerCase()] throws a
    TypeError. *)
Record SearchResult := {
  display_name : option string;
  type : option string;
  class : option string;
  lat : R;
  lon : R
}.

(** What one [fetch] of the loop can come to. *)
Inductive FetchOutcome :=
| FetchRejected                          (* the request fails *)
| HttpError                              (* [response.ok] is false *)
| BadBody                                (* [response.json()] rejects *)
| Results (results : list SearchResult). (* the parsed array *)

Definition results_of (o : FetchOutcome) : list SearchResult :=
  match o with Results rs => rs | _ => [] end.

Definition searches (query : string) : list string :=
  [(query ++ " bus stop")%string; (query ++ " תחנה")%string;
   (query ++ " תחנת אוטובוס")%string; query].

(** The body of the [for] loop: [(allResults, log)] after one query. *)
Definition search_one (fetch : string -> FetchOutcome)
    (acc : list SearchResult * list Effect) (searchQuery : string)
    : list SearchResult * list Effect :=
  let (allResults, log) := acc in
  match fetch searchQuery with
  | Results results => (allResults ++ results, log)
  | HttpError => (allResults, log)
  | FetchRejected | BadBody => (allResults, log ++ [ConsoleWarn])
  end.

Definition distance (a b : SearchResult) : R :=
  Geo.calculateDistance (lat a) (lon a) (lat b) (lon b).

(** The callback of [uniqueResults.some]. *)
Definition within_50m (result existing : SearchResult) : bool :=
  Rltb (distance result existing) 0.05.

(** The body of [allResults.forEach]. *)
Definition push_unique (uniqueResults : list SearchResult)
    (result : SearchResult) : list SearchResult :=
  let isDuplicate := existsb (within_50m result) uniqueResults in
  if isDuplicate then uniqueResults else uniqueResults ++ [result].

Definition uniqueResults (allResults : list SearchResult) : list SearchResult :=
  fold_left push_unique allResults [].

Definition toLowerCase_char (c : ascii) : ascii :=
  let n := nat_of_ascii c in
  if (65 <=? n)%nat && (n <=? 90)%nat then ascii_of_nat (n + 32) else c.

(** [toLowerCase] on the letters A to Z; the bytes of other scripts are
    left as they are. *)
Fixpoint toLowerCase (s : string) : string :=
  match s with
  | EmptyString => EmptyString
  | String c r => String (toLowerCase_char c) (toLowerCase r)
  end.

Fixpoint includes (s needle : string) : bool :=
  prefix needle s ||
  match s with
  | EmptyString => false
  | String _ r => includes r needle
  end.

Definition or_empty (o : option string) : string :=
  match o with Some s => s | None => EmptyString end.

(** The callback of [uniqueResults.filter]; [None] is the TypeError. *)
Definition is_transit (result : SearchResult) : option bool :=
  match display_name result with
  | None => None
  | Some display =>
      let name := toLowerCase display in
      let type := toLowerCase (or_empty (type result)) in
      let category := toLowerCase (or_empty (class result)) in
      Some (includes type "bus_stop" ||
            includes type "station" ||
            includes category "highway" ||
            includes category "public_transport" ||
            includes name "תחנ" ||
            includes name "bus" ||
            includes name "station")
  end.

Fixpoint filter_transit (l : list SearchResult) : option (list SearchResult) :=
  match l with
  | [] => Some []
  | r :: l' =>
      match is_transit r with
      | None => None
      | Some keep =>
          match filter_transit l' with
          | None => None
          | Some kept => Some (if keep then r :: kept else kept)
          end
      end
  end.

Definition searching_msg : string := "מחפש תחנות...".

Definition not_found_msg : string :=
  ("לא נמצאו תחנות. נסה שם אחר או הוסף "
    ++ String "034" ("תחנה" ++ String "034" " לחיפוש"))%string.

Definition search_error_msg : string := "שגיאה בחיפוש תחנות".

Definition searchBusStation (fetch : string -> FetchOutcome) (query : string)
    : list SearchResult * list Effect :=
  let log := [ShowStatus searching_msg Info] in
  let (allResults, log) := fold_left (search_one fetch) (searches query) ([], log) in
  let uniqueResults := uniqueResults allResults in
  match filter_transit uniqueResults with
  | None =>
      (* catch (error) *)
      ([], log ++ [ConsoleError; ShowStatus search_error_msg Error])
  | Some filtered =>
      let filteredResults := firstn 10 filtered in
      if (List.length filteredResults =? 0)%nat && (0 <? List.length uniqueResults)%nat then
        (firstn 10 uniqueResults,
         log ++ [ShowStatus
                   ("נמצאו " ++ Format.NumberToString
                       (Z.of_nat (Nat.min (List.length uniqueResults) 10)) ++ " תוצאות")%string
                   Success])
      else if (List.length filteredResults =? 0)%nat then
        ([], log ++ [ShowStatus not_found_msg Warning])
      else
        (filteredResults,
         log ++ [ShowStatus
                   ("נמצאו " ++ Format.NumberToString
                       (Z.of_nat (List.length filteredResults)) ++ " תחנות")%string
                   Success])
  end.

(** *** Notions the properties are stated with *)

(** Any two entries at different positions are at least 50 m apart. *)
Definition pairwise_far (l : list SearchResult) : Prop :=
  forall (i j : nat) (x y : SearchResult),
    i <> j -> nth_error l i = Some x -> nth_error l j = Some y ->
    0.05 <= distance x y.

(** The console warnings of the loop: one for each request that failed
    or whose body did not parse. *)
Definition warnings_of (fetch : string -> FetchOutcome) (qs : list string)
    : list Effect :=
  flat_map (fun q => match fetch q with
                     | FetchRejected | BadBody => [ConsoleWarn]
                     | _ => []
                     end) qs.

(** [allResults] after the loop: the arrays of the requests that
    succeeded, in the order of the queries. *)
Definition fetched (fetch : string -> FetchOutcome) (query : string)
    : list SearchResult :=
  flat_map (fun q => results_of (fetch q)) (searches query).

(** The filter callback answers [true]. *)
Definition transit (result : SearchResult) : bool :=
  match is_transit result with Some true => true | _ => false end.


End Search.

(** ** The tracking session ([startTracking], [stopTracking],
       [updateDistanceDisplay], [getUserLocation]) *)

Module Tracker.

Local Open Scope string_scope.
Local Open Scope list_scope.
Local Open Scope R_scope.

(** The time between two firings of the interval ([TRACKING_INTERVAL],
    5000 ms) is not part of the model: a timer that is set may fire at
    any turn of the event loop. *)

Definition ALERT_DISTANCE : R := 5. (* km *)

(** [userLocation] *)
Record Location := {
  lat : R;
  lng : R;
  accuracy : R
}.

(** [selectedStation] *)
Record Station := {
  name : string;
  address : string;
  station_lat : R;
  station_lng : R
}.

(** The global variables of the script that the session uses; [None]
    is [null]. *)
Record Globals := {
  userLocation : option Location;
  selectedStation : option Station;
  trackingInterval : option nat;
  isTracking : bool;
  hasAlerted : bool
}.

(** The part of the document the session switches: the [alert-active]
    class of the result card, and which blocks are displayed. *)
Record Dom := {
  alertActive : bool;
  alertZoneShown : bool;
  resultsShown : bool;
  trackingShown : bool
}.

(** Where the code was waiting when it called [getUserLocation]. *)
Inductive Continuation :=
| AfterLoad    (* the call of the DOMContentLoaded handler *)
| AfterStart   (* [await getUserLocation()] in [startTracking] *)
| AfterTick.   (* [await getUserLocation()] in the interval callback *)

(** The host: the intervals that are set and not cleared, and the
    [getCurrentPosition] requests that have not called back yet. *)
Record Host := {
  timers : list nat;
  nextTimer : nat;
  requests : list (nat * Continuation);
  nextRequest : nat
}.

(** The state of the page: the globals of the script, the document, the
    host, and the calls made so far. *)
Record World := {
  globals : Globals;
  dom : Dom;
  host : Host;
  log : list Effect
}.

(** *** Assignments *)

Definition set_userLocation (v : option Location) (g : Globals) : Globals :=
  {| userLocation := v; selectedStation := selectedStation g;
     trackingInterval := trackingInterval g; isTracking := isTracking g;
     hasAlerted := hasAlerted g |}.

Definition set_selectedStation (v : option Station) (g : Globals) : Globals :=
  {| userLocation := userLocation g; selectedStation := v;
     trackingInterval := trackingInterval g; isTracking := isTracking g;
     hasAlerted := hasAlerted g |}.

Definition set_trackingInterval (v : option nat) (g : Globals) : Globals :=
  {| userLocation := userLocation g; selectedStation := selectedStation g;
     trackingInterval := v; isTracking := isTracking g;
     hasAlerted := hasAlerted g |}.

Definition set_isTracking (v : bool) (g : Globals) : Globals :=
  {| userLocation := userLocation g; selectedStation := selectedStation g;
     trackingInterval := trackingInterval g; isTracking := v;
     hasAlerted := hasAlerted g |}.

Definition set_hasAlerted (v : bool) (g : Globals) : Globals :=
  {| userLocation := userLocation g; selectedStation := selectedStation g;
     trackingInterval := trackingInterval g; isTracking := isTracking g;
     hasAlerted := v |}.

Definition set_alert (v : bool) (d : Dom) : Dom :=
  {| alertActive := v; alertZoneShown := v;
     resultsShown := resultsShown d; trackingShown := trackingShown d |}.

Definition set_resultsShown (v : bool) (d : Dom) : Dom :=
  {| alertActive := alertActive d; alertZoneShown := alertZoneShown d;
     resultsShown := v; trackingShown := trackingShown d |}.

Definition set_trackingShown (v : bool) (d : Dom) : Dom :=
  {| alertActive := alertActive d; alertZoneShown := alertZoneShown d;
     resultsShown := resultsShown d; trackingShown := v |}.

Definition upd_globals (f : Globals -> Globals) (w : World) : World :=
  {| globals := f (globals w); dom := dom w; host := host w; log := log w |}.

Definition upd_dom (f : Dom -> Dom) (w : World) : World :=
  {| globals := globals w; dom := f (dom w); host := host w; log := log w |}.

Definition upd_host (f : Host -> Host) (w : World) : World :=
  {| globals := globals w; dom := dom w; host := f (host w); log := log w |}.

Definition emit (e : Effect) (w : World) : World :=
  {| globals := globals w; dom := dom w; host := host w; log := log w ++ [e] |}.

(** Statements in sequence. *)
Notation "w |> f" := (f w) (at level 45, left associativity, only parsing).

(** *** The host calls *)

(** [setInterval]: a new timer; its id goes to [trackingInterval]. *)
Definition setInterval (w : World) : World :=
  let id := nextTimer (host w) in
  w |> upd_host (fun h => {| timers := id :: timers h; nextTimer := S id;
                             requests := requests h;
                             nextRequest := nextRequest h |})
    |> upd_globals (set_trackingInterval (Some id)).

(** [clearInterval(id)] *)
Definition clearInterval (id : nat) (w : World) : World :=
  w |> upd_host (fun h => {| timers := remove Nat.eq_dec id (timers h);
                             nextTimer := nextTimer h;
                             requests := requests h;
                             nextRequest := nextRequest h |}).

(** [getUserLocation()] up to the callback: [getCurrentPosition] has a
    request in flight, which will be answered once, with a position or
    with an error.  (A browser without geolocation rejects at once; that
    is the error answer.) *)
Definition getUserLocation (k : Continuation) (w : World) : World :=
  w |> upd_host (fun h => {| timers := timers h; nextTimer := nextTimer h;
                             requests := (nextRequest h, k) :: requests h;
                             nextRequest := S (nextRequest h) |}).

(** The continuation waiting for request [req]. *)
Fixpoint lookup (req : nat) (l : list (nat * Continuation)) : option Continuation :=
  match l with
  | [] => None
  | (r, k) :: l' => if Nat.eqb r req then Some k else lookup req l'
  end.

Fixpoint drop (req : nat) (l : list (nat * Continuation)) : list (nat * Continuation) :=
  match l with
  | [] => []
  | (r, k) :: l' => if Nat.eqb r req then l' else (r, k) :: drop req l'
  end.

(** Request [req] has been answered. *)
Definition settle (req : nat) (w : World) : World :=
  w |> upd_host (fun h => {| timers := timers h; nextTimer := nextTimer h;
                             requests := drop req (requests h);
                             nextRequest := nextRequest h |}).

(** *** The functions of the script *)

Definition alert_msg : string := "⚠️ הגעת לאזור ההתראה! קרוב לתחנה!".

Definition select_station_msg : string := "בחר תחנה תחילה".

Definition tracking_started_msg : string := "מעקב החל בהצלחה!".

Definition tracking_stopped_msg : string := "מעקב הופסק".

Definition station_selected_msg : string := "תחנה נבחרה בהצלחה!".

(** [error.message] of the TypeError a [null] location or station would
    raise; its wording is the engine's. *)
Definition type_error_msg : string := "TypeError".

(** The three calls made on entering the alert zone. *)
Definition alert_effects : list Effect :=
  [PlayAlertSound; ShowStatus alert_msg Warning; ShowBrowserNotification].

(** [updateDistanceDisplay(distance)].  The texts it writes (distance,
    walking time, coordinates, time of day) are left out. *)
Definition updateDistanceDisplay (distance : R) (w : World) : World :=
  let w := w |> upd_dom (set_resultsShown true) in
  let w :=
    if Rleb distance ALERT_DISTANCE then
      let w := w |> upd_dom (set_alert true) in
      if negb (hasAlerted (globals w)) then
        w |> emit PlayAlertSound
          |> upd_globals (set_hasAlerted true)
          |> emit (ShowStatus alert_msg Warning)
          |> emit ShowBrowserNotification
      else w
    else
      w |> upd_dom (set_alert false)
        |> upd_globals (set_hasAlerted false) in
  w |> emit DrawRouteLine.

(** [calculateDistance(userLocation.lat, userLocation.lng,
    selectedStation.lat, selectedStation.lng)] followed by
    [updateDistanceDisplay(distance)]; [None] is the TypeError of
    reading a field of [null]. *)
Definition measure_and_display (w : World) : option World :=
  match userLocation (globals w), selectedStation (globals w) with
  | Some u, Some st =>
      let distance :=
        Geo.calculateDistance (lat u) (lng u) (station_lat st) (station_lng st) in
      Some (updateDistanceDisplay distance w)
  | _, _ => None
  end.

(** [selectStation(station)], the station record already built; the
    marker, circle and map calls are left out. *)
Definition selectStation (st : Station) (w : World) : World :=
  w |> upd_globals (set_selectedStation (Some st))
    |> emit (ShowStatus station_selected_msg Success).

(** [startTracking()] up to its [await]. *)
Definition startTracking (w : World) : World :=
  match selectedStation (globals w) with
  | None => w |> emit (ShowStatus select_station_msg Error)
  | Some _ =>
      w |> emit ArmAlertSound
        |> emit RequestNotificationPermission
        |> getUserLocation AfterStart
  end.

(** [startTracking()] from its [await] on, the position found. *)
Definition startTracking_resumed (w : World) : World :=
  let w := w |> upd_globals (set_isTracking true)
             |> upd_dom (set_trackingShown true) in
  match measure_and_display w with
  | Some w =>
      w |> emit FitBounds
        |> setInterval
        |> emit (ShowStatus tracking_started_msg Success)
  | None => w |> emit (ShowStatus type_error_msg Error)
  end.

(** The [catch] of [startTracking()], the position not found. *)
Definition startTracking_rejected (message : string) (w : World) : World :=
  w |> emit (ShowStatus message Error).

(** The interval callback up to its [await]. *)
Definition tick (w : World) : World :=
  w |> getUserLocation AfterTick.

(** The interval callback from its [await] on, the position found. *)
Definition tick_resumed (w : World) : World :=
  match measure_and_display w with
  | Some w => w
  | None => w |> emit ConsoleError
  end.

(** The [catch] of the interval callback, the position not found. *)
Definition tick_rejected (w : World) : World :=
  w |> emit ConsoleError.

(** [stopTracking()] *)
Definition stopTracking (w : World) : World :=
  let w :=
    match trackingInterval (globals w) with
    | Some id =>
        w |> clearInterval id
          |> upd_globals (set_trackingInterval None)
    | None => w
    end in
  w |> upd_globals (set_isTracking false)
    |> upd_globals (set_hasAlerted false)
    |> upd_dom (set_trackingShown false)
    |> emit (ShowStatus tracking_stopped_msg Info).

(** The success callback of [getCurrentPosition]. *)
Definition position_found (pos : Location) (w : World) : World :=
  w |> upd_globals (set_userLocation (Some pos))
    |> emit UpdateUserMarker.

(** *** The event loop *)

(** What the user and the host can do to the page. *)
Inductive Event :=
| ClickSuggestion (st : Station)                (* a search suggestion *)
| ClickStart                                   (* the start button *)
| ClickStop                                    (* the stop button *)
| TimerFires (id : nat)                        (* an interval elapses *)
| PositionFound (req : nat) (pos : Location)    (* success callback *)
| PositionError (req : nat) (message : string). (* error callback *)

(** One turn of the event loop; [None] when the event cannot happen: a
    timer that is not set, a request that is not in flight. *)
Definition step (w : World) (e : Event) : option World :=
  match e with
  | ClickSuggestion st => Some (selectStation st w)
  | ClickStart => Some (startTracking w)
  | ClickStop => Some (stopTracking w)
  | TimerFires id =>
      if existsb (Nat.eqb id) (timers (host w)) then Some (tick w) else None
  | PositionFound req pos =>
      match lookup req (requests (host w)) with
      | None => None
      | Some k =>
          let w := w |> settle req |> position_found pos in
          Some match k with
               | AfterLoad => w
               | AfterStart => startTracking_resumed w
               | AfterTick => tick_resumed w
               end
      end
  | PositionError req message =>
      match lookup req (requests (host w)) with
      | None => None
      | Some k =>
          let w := w |> settle req in
          Some match k with
               | AfterLoad => w |> emit ConsoleLog
               | AfterStart => startTracking_rejected message w
               | AfterTick => tick_rejected w
               end
      end
  end.

(** Events one after the other. *)
Fixpoint run (w : World) (es : list Event) : option World :=
  match es with
  | [] => Some w
  | e :: es' =>
      match step w e with
      | Some w' => run w' es'
      | None => None
      end
  end.

(** The page once loaded: nothing selected, nothing tracked, and the
    position request of the DOMContentLoaded handler in flight. *)
Definition initial : World :=
  {| globals := {| userLocation := None; selectedStation := None;
                   trackingInterval := None; isTracking := false;
                   hasAlerted := false |};
     dom := {| alertActive := false; alertZoneShown := false;
               resultsShown := false; trackingShown := false |};
     host := {| timers := []; nextTimer := 1;
                requests := [(0%nat, AfterLoad)]; nextRequest := 1 |};
     log := [] |}.

(** The worlds the page can get to. *)
Inductive reachable : World -> Prop :=
| reachable_initial : reachable initial
| reachable_step (w w' : World) (e : Event) :
    reachable w -> step w e = Some w' -> reachable w'.

(** *** Notions the properties are stated with *)

(** The alert calls among the effects: the sound, the notification and
    the warning status. *)
Definition is_alert (e : Effect) : bool :=
  match e with
  | PlayAlertSound | ShowBrowserNotification | ShowStatus _ Warning => true
  | _ => false
  end.



(** The distance the session computes for a position. *)
Definition distance_to (st : Station) (pos : Location) : R :=
  Geo.calculateDistance (lat pos) (lng pos) (station_lat st) (station_lng st).

(** One round of polling: the timer fires, and the request it makes
    finds the position [pos]. *)
Definition polled (id : nat) (pos : Location) (w : World) : option World :=
  run w [TimerFires id; PositionFound (nextRequest (host w)) pos].


(** While no station is selected the session is idle: not tracking, no
    interval set, and no request of [startTracking] or of a tick in
    flight. *)
Definition idle (w : World) : Prop :=
  isTracking (globals w) = false /\
  trackingInterval (globals w) = None /\
  timers (host w) = [] /\
  Forall (fun p => snd p = AfterLoad) (requests (host w)).

(** One round of polling that fails: the timer fires, and the request
    it makes is answered with an error. *)
Definition failed_tick (id : nat) (message : string) (w : World) : option World :=
  run w [TimerFires id; PositionError (nextRequest (host w)) message].

Fixpoint failed_ticks (id : nat) (message : string) (n : nat) (w : World)
    : option World :=
  match n with
  | O => Some w
  | S n' =>
      match failed_tick id message w with
      | Some w' => failed_ticks id message n' w'
      | None => None
      end
  end.

(** The events of a session whose position requests all fail. *)
Definition tick_or_error (e : Event) : Prop :=
  match e with TimerFires _ | PositionError _ _ => True | _ => False end.

(** *** A session at the station *)

Definition central : Station :=
  {| name := "Central"; address := "Central, Tel Aviv";
     station_lat := 32; station_lng := 34 |}.

(** A fix at the station, with the given accuracy. *)
Definition at_central (acc : R) : Location :=
  {| lat := 32; lng := 34; accuracy := acc |}.

(** The worlds of one session at the station: [selected], the station
    chosen; [starting], [startTracking] waiting for the position;
    [tracking], the session started and alerting; [polling], the timer
    fired and its request in flight; [stopped], after [stopTracking];
    [late], after the position of that request has arrived. *)
Definition selected : World :=
  {| globals := {| userLocation := None; selectedStation := Some central;
                   trackingInterval := None; isTracking := false;
                   hasAlerted := false |};
     dom := dom initial;
     host := host initial;
     log := [ShowStatus station_selected_msg Success] |}.

Definition starting : World :=
  {| globals := globals selected;
     dom := dom initial;
     host := {| timers := []; nextTimer := 1;
                requests := [(1%nat, AfterStart); (0%nat, AfterLoad)];
                nextRequest := 2 |};
     log := log selected ++ [ArmAlertSound; RequestNotificationPermission] |}.

Definition tracking : World :=
  {| globals := {| userLocation := Some (at_central 10);
                   selectedStation := Some central;
                   trackingInterval := Some 1%nat; isTracking := true;
                   hasAlerted := true |};
     dom := {| alertActive := true; alertZoneShown := true;
               resultsShown := true; trackingShown := true |};
     host := {| timers := [1%nat]; nextTimer := 2;
                requests := [(0%nat, AfterLoad)]; nextRequest := 2 |};
     log := log starting ++ [UpdateUserMarker] ++ alert_effects
              ++ [DrawRouteLine; FitBounds;
                  ShowStatus tracking_started_msg Success] |}.

Definition polling : World :=
  {| globals := globals tracking;
     dom := dom tracking;
     host := {| timers := [1%nat]; nextTimer := 2;
                requests := [(2%nat, AfterTick); (0%nat, AfterLoad)];
                nextRequest := 3 |};
     log := log tracking |}.

Definition stopped : World :=
  {| globals := {| userLocation := Some (at_central 10);
                   selectedStation := Some central;
                   trackingInterval := None; isTracking := false;
                   hasAlerted := false |};
     dom := {| alertActive := true; alertZoneShown := true;
               resultsShown := true; trackingShown := false |};
     host := {| timers := []; nextTimer := 2;
                requests := [(2%nat, AfterTick); (0%nat, AfterLoad)];
                nextRequest := 3 |};
     log := log polling ++ [ShowStatus tracking_stopped_msg Info] |}.

Definition late : World :=
  {| globals := {| userLocation := Some (at_central 25);
                   selectedStation := Some central;
                   trackingInterval := None; isTracking := false;
                   hasAlerted := true |};
     dom := dom stopped;
     host := {| timers := []; nextTimer := 2;
                requests := [(0%nat, AfterLoad)]; nextRequest := 3 |};
     log := log stopped ++ [UpdateUserMarker] ++ alert_effects
              ++ [DrawRouteLine] |}.

(** The worlds of a session started twice: [starting_twice], the start
    button clicked again before the first position has arrived;
    [tracking_once] and [tracking_twice], after the position of the
    first and of the second request; [stopped_once], after
    [stopTracking]. *)
Definition starting_twice : World :=
  {| globals := globals selected;
     dom := dom initial;
     host := {| timers := []; nextTimer := 1;
                requests := [(2%nat, AfterStart); (1%nat, AfterStart);
                             (0%nat, AfterLoad)];
                nextRequest := 3 |};
     log := log starting ++ [ArmAlertSound; RequestNotificationPermission] |}.

Definition tracking_once : World :=
  {| globals := globals tracking;
     dom := dom tracking;
     host := {| timers := [1%nat]; nextTimer := 2;
                requests := [(2%nat, AfterStart); (0%nat, AfterLoad)];
                nextRequest := 3 |};
     log := log starting_twice ++ [UpdateUserMarker] ++ alert_effects
              ++ [DrawRouteLine; FitBounds;
                  ShowStatus tracking_started_msg Success] |}.

Definition tracking_twice : World :=
  {| globals := {| userLocation := Some (at_central 10);
                   selectedStation := Some central;
                   trackingInterval := Some 2%nat; isTracking := true;
                   hasAlerted := true |};
     dom := dom tracking;
     host := {| timers := [2%nat; 1%nat]; nextTimer := 3;
                requests := [(0%nat, AfterLoad)]; nextRequest := 3 |};
     log := log tracking_once
              ++ [UpdateUserMarker; DrawRouteLine; FitBounds;
                  ShowStatus tracking_started_msg Success] |}.

Definition stopped_once : World :=
  {| globals := globals stopped;
     dom := dom stopped;
     host := {| timers := [1%nat]; nextTimer := 3;
                requests := [(0%nat, AfterLoad)]; nextRequest := 3 |};
     log := log tracking_twice ++ [ShowStatus tracking_stopped_msg Info] |}.

(** *** Notions of the invariants *)

(** The calls that report a failure: [console.error] and an error
    status. *)
Definition is_error (e : Effect) : bool :=
  match e with
  | ConsoleError | ShowStatus _ Error => true
  | _ => false
  end.

End Tracker.

(** ** The suggestion list ([displaySuggestions], the search button, and
       the station record of [selectStation]) *)

Module Suggest.

Import Search.

Local Open Scope string_scope.
Local Open Scope list_scope.

(** [s.split(sep)] for a separator of one character.  A comma is one
    byte in UTF-8 and no part of a longer sequence, so splitting the
    bytes at commas is splitting the JavaScript string at commas. *)
Fixpoint split (sep : ascii) (s : string) : list string :=
  match s with
  | EmptyString => [EmptyString]
  | String c r =>
      if Ascii.eqb c sep then EmptyString :: split sep r
      else match split sep r with
           | p :: ps => String c p :: ps
           | [] => [String c EmptyString]
           end
  end.

(** [parts.join(sep)] *)
Definition join (sep : string) (parts : list string) : string :=
  String.concat sep parts.

(** [parts.slice(1, 3)] *)
Definition slice_1_3 (parts : list string) : list string :=
  firstn 2 (skipn 1 parts).

(** [a || b] on strings: the empty string is the falsy one. *)
Definition or_else (a b : string) : string :=
  if String.eqb a "" then b else a.

(** One item of the list: its two texts, and the result its click
    handler holds. *)
Record Suggestion := {
  suggestion_name : string;
  suggestion_address : string;
  suggestion_result : SearchResult
}.

(** The body of [results.forEach]; [None] is the TypeError of
    [result.display_name.split] on a missing field. *)
Definition suggestion_of (result : SearchResult) : option Suggestion :=
  match display_name result with
  | None => None
  | Some display =>
      let displayParts := split "," display in
      let stationName := nth 0 displayParts "" in
      Some {| suggestion_name := stationName;
              suggestion_address :=
                or_else (join ", " (slice_1_3 displayParts)) display;
              suggestion_result := result |}
  end.

(** The record [selectStation(station)] assigns to [selectedStation];
    [None] is the TypeError again. *)
Definition selectedStation_of (station : SearchResult) : option Tracker.Station :=
  match display_name station with
  | None => None
  | Some display =>
      Some {| Tracker.name := nth 0 (split "," display) "";
              Tracker.address := display;
              Tracker.station_lat := lat station;
              Tracker.station_lng := lon station |}
  end.

(** The search controls of the document: the button, and the
    suggestion list with its [show] class. *)
Record SearchUi := {
  loading : bool;
  disabled : bool;
  items : list Suggestion;
  shown : bool
}.

Definition set_button (v : bool) (ui : SearchUi) : SearchUi :=
  {| loading := v; disabled := v; items := items ui; shown := shown ui |}.

Definition set_items (v : list Suggestion) (ui : SearchUi) : SearchUi :=
  {| loading := loading ui; disabled := disabled ui; items := v; shown := shown ui |}.

Definition set_shown (v : bool) (ui : SearchUi) : SearchUi :=
  {| loading := loading ui; disabled := disabled ui; items := items ui; shown := v |}.

(** How a call ends, with the document as it is then. *)
Inductive Completion :=
| Normal (ui : SearchUi)
| Throw (ui : SearchUi).

(** [results.forEach(...)]: the items are appended one by one, up to
    the first result that throws. *)
Fixpoint appendItems (results : list SearchResult) (ui : SearchUi) : Completion :=
  match results with
  | [] => Normal ui
  | result :: results' =>
      match suggestion_of result with
      | None => Throw ui
      | Some item => appendItems results' (set_items (items ui ++ [item]) ui)
      end
  end.

Definition displaySuggestions (results : list SearchResult) (ui : SearchUi)
    : Completion :=
  let ui := set_items [] ui in
  match results with
  | [] => Normal (set_shown false ui)
  | _ =>
      match appendItems results ui with
      | Normal ui => Normal (set_shown true ui)
      | Throw ui => Throw ui
      end
  end.

Definition enter_name_msg : string := "הזן שם תחנה".

(** The click handler of the search button, from [query], the trimmed
    text of the input, on.  While it waits for the search the button is
    disabled, so no second run of the handler starts before it ends. *)
Definition search_click (fetch : string -> FetchOutcome) (query : string)
    (ui : SearchUi) : Completion * list Effect :=
  if String.eqb query "" then (Normal ui, [ShowStatus enter_name_msg Error])
  else
    let ui := set_button true ui in
    let (results, log) := searchBusStation fetch query in
    match displaySuggestions results ui with
    | Normal ui => (Normal (set_button false ui), log)
    | Throw ui => (Throw ui, log)
    end.

(** The click handler of an item. *)
Definition suggestion_click (item : Suggestion) (ui : SearchUi)
    : option Tracker.Station * SearchUi :=
  match selectedStation_of (suggestion_result item) with
  | Some station => (Some station, set_shown false ui)
  | None => (None, ui)
  end.

End Suggest.

(** ** The layers of the map ([initMap], [updateUserMarker],
       [selectStation], [drawRouteLine]) *)

Module MapView.

Local Open Scope list_scope.
Local Open Scope R_scope.

Definition LatLng : Type := R * R.

(** What the script puts on the map. *)
Inductive Layer :=
| Tiles
| Marker (latlng : LatLng)
| Circle (latlng : LatLng) (radius : R) (* metres *)
| Polyline (a b : LatLng).

(** What the map was last told to show. *)
Inductive View :=
| Center (center : LatLng) (zoom : nat)  (* [setView] *)
| Bounds (a b : LatLng).                 (* [fitBounds] *)

(** The two globals the map functions read, the four layer variables
    ([None] is [undefined]), and the map: its layers by the id Leaflet
    stamps on each layer object, and its view.  A variable holds the id
    of its object, so [setLatLng] through the variable moves the layer
    that is on the map. *)
Record Page := {
  userLocation : option Tracker.Location;
  selectedStation : option Tracker.Station;
  userMarker : option nat;
  stationMarker : option nat;
  routeLine : option nat;
  alertCircle : option nat;
  layers : nat -> option Layer;
  nextLayer : nat;
  view : View
}.

Definition location_latlng (u : Tracker.Location) : LatLng :=
  (Tracker.lat u, Tracker.lng u).

Definition station_latlng (st : Tracker.Station) : LatLng :=
  (Tracker.station_lat st, Tracker.station_lng st).

(** *** Assignments *)

Definition set_userLocation (v : option Tracker.Location) (p : Page) : Page :=
  {| userLocation := v; selectedStation := selectedStation p;
     userMarker := userMarker p; stationMarker := stationMarker p;
     routeLine := routeLine p; alertCircle := alertCircle p;
     layers := layers p; nextLayer := nextLayer p; view := view p |}.

Definition set_selectedStation (v : option Tracker.Station) (p : Page) : Page :=
  {| userLocation := userLocation p; selectedStation := v;
     userMarker := userMarker p; stationMarker := stationMarker p;
     routeLine := routeLine p; alertCircle := alertCircle p;
     layers := layers p; nextLayer := nextLayer p; view := view p |}.

Definition set_userMarker (v : option nat) (p : Page) : Page :=
  {| userLocation := userLocation p; selectedStation := selectedStation p;
     userMarker := v; stationMarker := stationMarker p;
     routeLine := routeLine p; alertCircle := alertCircle p;
     layers := layers p; nextLayer := nextLayer p; view := view p |}.

Definition set_stationMarker (v : option nat) (p : Page) : Page :=
  {| userLocation := userLocation p; selectedStation := selectedStation p;
     userMarker := userMarker p; stationMarker := v;
     routeLine := routeLine p; alertCircle := alertCircle p;
     layers := layers p; nextLayer := nextLayer p; view := view p |}.

Definition set_routeLine (v : option nat) (p : Page) : Page :=
  {| userLocation := userLocation p; selectedStation := selectedStation p;
     userMarker := userMarker p; stationMarker := stationMarker p;
     routeLine := v; alertCircle := alertCircle p;
     layers := layers p; nextLayer := nextLayer p; view := view p |}.

Definition set_alertCircle (v : option nat) (p : Page) : Page :=
  {| userLocation := userLocation p; selectedStation := selectedStation p;
     userMarker := userMarker p; stationMarker := stationMarker p;
     routeLine := routeLine p; alertCircle := v;
     layers := layers p; nextLayer := nextLayer p; view := view p |}.

Definition set_layers (v : nat -> option Layer) (n : nat) (p : Page) : Page :=
  {| userLocation := userLocation p; selectedStation := selectedStation p;
     userMarker := userMarker p; stationMarker := stationMarker p;
     routeLine := routeLine p; alertCircle := alertCircle p;
     layers := v; nextLayer := n; view := view p |}.

(** *** The calls into Leaflet *)

(** [L.marker(...).addTo(map)] and the like: a new layer object, with
    the next id, is on the map. *)
Definition addTo (x : Layer) (p : Page) : Page :=
  let id := nextLayer p in
  set_layers (fun i => if Nat.eqb i id then Some x else layers p i) (S id) p.

(** [map.removeLayer(layer)] *)
Definition removeLayer (id : nat) (p : Page) : Page :=
  set_layers (fun i => if Nat.eqb i id then None else layers p i) (nextLayer p) p.

(** [marker.setLatLng(latlng)] *)
Definition setLatLng (id : nat) (latlng : LatLng) (p : Page) : Page :=
  set_layers (fun i => if Nat.eqb i id
                       then match layers p i with
                            | Some _ => Some (Marker latlng)
                            | None => None
                            end
                       else layers p i) (nextLayer p) p.

(** [map.setView(center, zoom)] and [map.fitBounds(bounds)] *)
Definition set_view (v : View) (p : Page) : Page :=
  {| userLocation := userLocation p; selectedStation := selectedStation p;
     userMarker := userMarker p; stationMarker := stationMarker p;
     routeLine := routeLine p; alertCircle := alertCircle p;
     layers := layers p; nextLayer := nextLayer p; view := v |}.

(** *** The functions of the script *)

(** The page after [initMap]: the tile layer on the map, centred on
    Israel. *)
Definition initMap : Page :=
  {| userLocation := None; selectedStation := None;
     userMarker := None; stationMarker := None;
     routeLine := None; alertCircle := None;
     layers := fun i => if Nat.eqb i 0 then Some Tiles else None;
     nextLayer := 1;
     view := Center (32.0853, 34.7818) 8 |}.

Definition updateUserMarker (p : Page) : Page :=
  match userLocation p with
  | None => p
  | Some u =>
      match userMarker p with
      | Some id => setLatLng id (location_latlng u) p
      | None =>
          let id := nextLayer p in
          let p := set_userMarker (Some id) (addTo (Marker (location_latlng u)) p) in
          match selectedStation p with
          | None => set_view (Center (location_latlng u) 14) p
          | Some _ => p
          end
      end
  end.

(** The success callback of [getCurrentPosition]. *)
Definition position_found (pos : Tracker.Location) (p : Page) : Page :=
  updateUserMarker (set_userLocation (Some pos) p).

(** [selectStation(station)], the station record already built: the
    marker, the circle and the view. *)
Definition selectStation (st : Tracker.Station) (p : Page) : Page :=
  let p := set_selectedStation (Some st) p in
  let p :=
    match stationMarker p with
    | Some id => setLatLng id (station_latlng st) p
    | None =>
        let id := nextLayer p in
        set_stationMarker (Some id) (addTo (Marker (station_latlng st)) p)
    end in
  let p :=
    match alertCircle p with
    | Some id => removeLayer id p
    | None => p
    end in
  let p :=
    let id := nextLayer p in
    set_alertCircle (Some id)
      (addTo (Circle (station_latlng st) (Tracker.ALERT_DISTANCE * 1000)) p) in
  match userLocation p with
  | Some u => set_view (Bounds (location_latlng u) (station_latlng st)) p
  | None => set_view (Center (station_latlng st) 14) p
  end.

Definition drawRouteLine (p : Page) : Page :=
  match userLocation p, selectedStation p with
  | Some u, Some st =>
      let p :=
        match routeLine p with
        | Some id => removeLayer id p
        | None => p
        end in
      let id := nextLayer p in
      set_routeLine (Some id)
        (addTo (Polyline (location_latlng u) (station_latlng st)) p)
  | _, _ => p
  end.

(** *** The calls in sequence *)

Inductive Call :=
| Located (pos : Tracker.Location)   (* a position arrives *)
| Selected (st : Tracker.Station)    (* a suggestion is clicked *)
| RouteDrawn.                        (* [updateDistanceDisplay] ends *)

Definition call (p : Page) (c : Call) : Page :=
  match c with
  | Located pos => position_found pos p
  | Selected st => selectStation st p
  | RouteDrawn => drawRouteLine p
  end.

Definition calls (cs : list Call) : Page := fold_left call cs initMap.

(** *** Notions the properties are stated with *)

(** The variables and the map agree: the tile layer is there; no layer
    has an id not yet given out; every other layer on the map is the
    object of one of the four variables; and each variable that is set
    holds a layer that is on the map, of its kind and at its place. *)
Definition well_formed (p : Page) : Prop :=
  layers p 0%nat = Some Tiles /\
  (forall i, (nextLayer p <= i)%nat -> layers p i = None) /\
  (forall i x, layers p i = Some x ->
     i = 0%nat \/ userMarker p = Some i \/ stationMarker p = Some i \/
     alertCircle p = Some i \/ routeLine p = Some i) /\
  (forall i, userMarker p = Some i -> stationMarker p <> Some i) /\
  (forall i, userMarker p = Some i ->
     exists u, userLocation p = Some u /\
               layers p i = Some (Marker (location_latlng u))) /\
  (forall i, stationMarker p = Some i ->
     exists st, selectedStation p = Some st /\
                layers p i = Some (Marker (station_latlng st))) /\
  (forall i, alertCircle p = Some i ->
     exists st, selectedStation p = Some st /\
                layers p i = Some (Circle (station_latlng st)
                                     (Tracker.ALERT_DISTANCE * 1000))) /\
  (forall i, routeLine p = Some i ->
     exists a b, layers p i = Some (Polyline a b)).

End MapView.

(** ** The alert sound ([initAlertSound], [armAlertSound],
       [playAlertSound]) *)

Module Sound.

Local Open Scope string_scope.
Local Open Scope list_scope.

(** The audio element: its source ([None] while none is set) and its
    volume.  Where playback has got to is the host's. *)
Record Audio := {
  src : option string;
  volume : Q
}.

(** Which callbacks wait for a promise of [alertSound.play()]. *)
Inductive Handler :=
| Arming     (* the [then] and [catch] of [armAlertSound] *)
| Alerting.  (* the [then] and [catch] of [playAlertSound] *)

(** [alertSound] ([None] is [null]), the promises of [play()] not yet
    settled, the volume at each call of [play()] so far, and the calls
    to the console and the status line. *)
Record State := {
  alertSound : option Audio;
  promises : list (nat * Handler);
  nextPromise : nat;
  plays : list Q;
  log : list Effect
}.

Definition formats : list (string * string) :=
  [("alert/a01.mp3", "audio/mpeg"); ("alert/a01.ogg", "audio/ogg");
   ("alert/a01.wav", "audio/wav")].

(** The script once loaded, before [initAlertSound]. *)
Definition loaded : State :=
  {| alertSound := None; promises := []; nextPromise := 0; plays := []; log := [] |}.

(** [initAlertSound()]; [canPlayType] tells whether the browser answers
    a non-empty string for a type.  A new element has volume 1. *)
Definition initAlertSound (canPlayType : string -> bool) (s : State) : State :=
  let format := find (fun f => canPlayType (snd f)) formats in
  {| alertSound := Some {| src := option_map fst format; volume := 1 |};
     promises := promises s; nextPromise := nextPromise s; plays := plays s;
     log := log s ++ match format with Some _ => [ConsoleLog] | None => [] end |}.

(** [alertSound.play()]: the call is recorded with the volume it is
    made at, and its promise waits for the host. *)
Definition play (h : Handler) (a : Audio) (s : State) : State :=
  {| alertSound := Some a;
     promises := (nextPromise s, h) :: promises s;
     nextPromise := S (nextPromise s);
     plays := plays s ++ [volume a];
     log := log s |}.

Definition armAlertSound (s : State) : State :=
  match alertSound s with
  | None => s
  | Some a => play Arming {| src := src a; volume := 0 |} s
  end.

Definition emit (es : list Effect) (s : State) : State :=
  {| alertSound := alertSound s; promises := promises s;
     nextPromise := nextPromise s; plays := plays s; log := log s ++ es |}.

Definition playAlertSound (s : State) : State :=
  match alertSound s with
  | None => emit [ConsoleWarn] s
  | Some a => play Alerting a s
  end.

Definition set_volume (v : Q) (s : State) : State :=
  {| alertSound := option_map (fun a => {| src := src a; volume := v |}) (alertSound s);
     promises := promises s; nextPromise := nextPromise s; plays := plays s;
     log := log s |}.

Definition fallback_msg : string := "🔔 התראה: הגעת לתחנה!".

(** The callbacks of a promise that settles. *)
Definition settled (h : Handler) (fulfilled : bool) (s : State) : State :=
  match h, fulfilled with
  | Arming, true => emit [ConsoleLog] (set_volume 1 s)
  | Arming, false => emit [ConsoleWarn] s
  | Alerting, true => emit [ConsoleLog] s
  | Alerting, false => emit [ConsoleWarn; ShowStatus fallback_msg Warning] s
  end.

Definition handler_of (id : nat) (s : State) : option Handler :=
  option_map snd (find (fun p => Nat.eqb (fst p) id) (promises s)).

Definition forget (id : nat) (s : State) : State :=
  {| alertSound := alertSound s;
     promises := filter (fun p => negb (Nat.eqb (fst p) id)) (promises s);
     nextPromise := nextPromise s; plays := plays s; log := log s |}.

(** What happens to the sound: the two functions are called, and the
    host settles a promise. *)
Inductive Event :=
| Arm
| Alert
| Settled (id : nat) (fulfilled : bool).

Definition step (s : State) (e : Event) : option State :=
  match e with
  | Arm => Some (armAlertSound s)
  | Alert => Some (playAlertSound s)
  | Settled id fulfilled =>
      match handler_of id s with
      | Some h => Some (settled h fulfilled (forget id s))
      | None => None
      end
  end.

Fixpoint run (s : State) (es : list Event) : option State :=
  match es with
  | [] => Some s
  | e :: es' =>
      match step s e with
      | Some s' => run s' es'
      | None => None
      end
  end.

(** *** Notions the properties are stated with *)

(** Along [es] no promise of [armAlertSound] is fulfilled. *)
Fixpoint arming_never_fulfilled (s : State) (es : list Event) : Prop :=
  match es with
  | [] => True
  | e :: es' =>
      match e with
      | Settled id true => handler_of id s <> Some Arming
      | _ => True
      end /\
      match step s e with
      | Some s' => arming_never_fulfilled s' es'
      | None => True
      end
  end.

Definition muted (s : State) : Prop :=
  exists a, alertSound s = Some a /\ volume a = 0%Q.

End Sound.

(** * Properties *)

(** ** Comparisons of real numbers *)

Lemma Rleb_true (x y : R) : Rleb x y = true <-> (x <= y)%R.
Proof.
  unfold Rleb. destruct (Rle_dec x y); split; intros H;
    try assumption; try reflexivity; try discriminate; contradiction.
Qed.


Lemma Rltb_true (x y : R) : Rltb x y = true <-> (x < y)%R.
Proof.
  unfold Rltb. destruct (Rlt_dec x y); split; intros H;
    try assumption; try reflexivity; try discriminate; contradiction.
Qed.

Lemma Rltb_false (x y : R) : Rltb x y = false <-> (y <= x)%R.
Proof.
  unfold Rltb. destruct (Rlt_dec x y); split; intros H;
    try reflexivity; try discriminate; lra.
Qed.

(** ** Great-circle distance *)

Module GeoFacts.

Import Geo.

Local Open Scope R_scope.

Lemma toRad_swap (x y : R) : toRad (x - y) / 2 = - (toRad (y - x) / 2).
Proof. unfold toRad. lra. Qed.

Lemma sin_sq_swap (x y : R) :
  sin (toRad (x - y) / 2) * sin (toRad (x - y) / 2) =
  sin (toRad (y - x) / 2) * sin (toRad (y - x) / 2).
Proof. rewrite toRad_swap, sin_neg. lra. Qed.

Lemma calculateDistance_sym (lat1 lon1 lat2 lon2 : R) :
  calculateDistance lat1 lon1 lat2 lon2 = calculateDistance lat2 lon2 lat1 lon1.
Proof.
  unfold calculateDistance.
  rewrite (sin_sq_swap lat2 lat1).
  replace (cos (toRad lat1) * cos (toRad lat2) *
           sin (toRad (lon2 - lon1) / 2) * sin (toRad (lon2 - lon1) / 2))
    with (cos (toRad lat2) * cos (toRad lat1) *
          (sin (toRad (lon2 - lon1) / 2) * sin (toRad (lon2 - lon1) / 2)))
    by ring.
  rewrite (sin_sq_swap lon2 lon1).
  replace (cos (toRad lat2) * cos (toRad lat1) *
           (sin (toRad (lon1 - lon2) / 2) * sin (toRad (lon1 - lon2) / 2)))
    with (cos (toRad lat2) * cos (toRad lat1) *
          sin (toRad (lon1 - lon2) / 2) * sin (toRad (lon1 - lon2) / 2))
    by ring.
  reflexivity.
Qed.

Lemma Math_atan2_0_1 : Math_atan2 0 1 = 0.
Proof.
  unfold Math_atan2.
  destruct (Rlt_dec 0 1) as [_ | H]; [| exfalso; apply H; lra].
  replace (0 / 1) with 0 by lra. apply atan_0.
Qed.

Lemma calculateDistance_self (lat lon : R) :
  calculateDistance lat lon lat lon = 0.
Proof.
  unfold calculateDistance, Math_sqrt, toRad.
  replace ((lat - lat) * (PI / 180) / 2) with 0 by lra.
  replace ((lon - lon) * (PI / 180) / 2) with 0 by lra.
  rewrite sin_0.
  replace (0 * 0 + cos (lat * (PI / 180)) * cos (lat * (PI / 180)) * 0 * 0)
    with 0 by ring.
  rewrite sqrt_0. replace (1 - 0) with 1 by lra. rewrite sqrt_1.
  rewrite Math_atan2_0_1. lra.
Qed.

Lemma Math_atan2_sin_cos (x : R) :
  0 <= x < PI / 2 -> Math_atan2 (sin x) (cos x) = x.
Proof.
  intros [H0 H1].
  assert (0 < cos x) as Hcos by (apply cos_gt_0; lra).
  unfold Math_atan2. destruct (Rlt_dec 0 (cos x)) as [_ | H]; [| contradiction].
  change (sin x / cos x) with (tan x). apply atan_tan. lra.
Qed.

(** Along the equator the distance is the arc: radius times angle.  One
    degree of longitude is [6371 * PI / 180], about 111.19 km. *)
Lemma calculateDistance_equator (lon : R) :
  0 <= lon < 180 -> calculateDistance 0 0 0 lon = 6371 * toRad lon.
Proof.
  intros [H0 H1].
  pose proof PI_RGT_0 as Hpi.
  set (x := toRad lon / 2).
  assert (0 <= x < PI / 2) as Hx by (unfold x, toRad; split; nra).
  assert (0 <= sin x) as Hsin by (apply sin_ge_0; lra).
  assert (0 < cos x) as Hcos by (apply cos_gt_0; lra).
  unfold calculateDistance, Math_sqrt.
  replace (toRad (0 - 0) / 2) with 0 by (unfold toRad; lra).
  replace (toRad (lon - 0) / 2) with x by (unfold x, toRad; lra).
  replace (toRad 0) with 0 by (unfold toRad; lra).
  rewrite sin_0, cos_0.
  replace (0 * 0 + 1 * 1 * sin x * sin x) with (sin x * sin x) by ring.
  rewrite (sqrt_square (sin x) Hsin).
  replace (1 - sin x * sin x) with (cos x * cos x)
    by (pose proof (sin2_cos2 x) as H; unfold Rsqr in H; lra).
  rewrite (sqrt_square (cos x)) by lra.
  rewrite Math_atan2_sin_cos by exact Hx.
  unfold x. lra.
Qed.

(** C3.  For all coordinates the haversine distance (Earth radius
    6371 km) is symmetric in its two points, and zero from a point to
    itself. *)
Theorem calculateDistance_symmetric_and_zero (lat1 lon1 lat2 lon2 : R) :
  calculateDistance lat1 lon1 lat2 lon2 = calculateDistance lat2 lon2 lat1 lon1 /\
  calculateDistance lat1 lon1 lat1 lon1 = 0.
Proof.
  split.
  - apply calculateDistance_sym.
  - apply calculateDistance_self.
Qed.

(** *** Arcs and longitudes *)

Lemma haversine_arc (x : R) :
  0 <= x < PI / 2 ->
  2 * Math_atan2 (Math_sqrt (sin x * sin x)) (Math_sqrt (1 - sin x * sin x))
  = 2 * x.
Proof.
  intros Hx. pose proof PI_RGT_0 as Hpi.
  assert (0 <= sin x) as Hsin by (apply sin_ge_0; lra).
  assert (0 < cos x) as Hcos by (apply cos_gt_0; lra).
  unfold Math_sqrt.
  rewrite (sqrt_square (sin x) Hsin).
  replace (1 - sin x * sin x) with (cos x * cos x)
    by (pose proof (sin2_cos2 x) as H; unfold Rsqr in H; lra).
  rewrite (sqrt_square (cos x)) by lra.
  rewrite Math_atan2_sin_cos by exact Hx. reflexivity.
Qed.

Lemma calculateDistance_meridian_up (lat1 lat2 lon : R) :
  0 <= lat2 - lat1 < 180 ->
  calculateDistance lat1 lon lat2 lon = 6371 * toRad (lat2 - lat1).
Proof.
  intros [H0 H1]. pose proof PI_RGT_0 as Hpi.
  set (x := toRad (lat2 - lat1) / 2).
  assert (0 <= x < PI / 2) as Hx by (unfold x, toRad; split; nra).
  unfold calculateDistance.
  replace (toRad (lon - lon) / 2) with 0 by (unfold toRad; lra).
  fold x. rewrite sin_0.
  replace (sin x * sin x + cos (toRad lat1) * cos (toRad lat2) * 0 * 0)
    with (sin x * sin x) by ring.
  rewrite haversine_arc by exact Hx. unfold x. lra.
Qed.

Lemma calculateDistance_equator_up (lon1 lon2 : R) :
  0 <= lon2 - lon1 < 180 ->
  calculateDistance 0 lon1 0 lon2 = 6371 * toRad (lon2 - lon1).
Proof.
  intros [H0 H1]. pose proof PI_RGT_0 as Hpi.
  set (x := toRad (lon2 - lon1) / 2).
  assert (0 <= x < PI / 2) as Hx by (unfold x, toRad; split; nra).
  unfold calculateDistance.
  replace (toRad (0 - 0) / 2) with 0 by (unfold toRad; lra).
  replace (toRad 0) with 0 by (unfold toRad; lra).
  fold x. rewrite sin_0, cos_0.
  replace (0 * 0 + 1 * 1 * sin x * sin x) with (sin x * sin x) by ring.
  rewrite haversine_arc by exact Hx. unfold x. lra.
Qed.

(** X2.  Between two points of one meridian, and between two points of
    the equator, less than half a turn apart, the distance is the arc:
    the radius 6371 km times the angle between them in radians. *)
Theorem calculateDistance_arc :
  (forall lat1 lat2 lon : R,
     Rabs (lat2 - lat1) < 180 ->
     calculateDistance lat1 lon lat2 lon = 6371 * toRad (Rabs (lat2 - lat1))) /\
  (forall lon1 lon2 : R,
     Rabs (lon2 - lon1) < 180 ->
     calculateDistance 0 lon1 0 lon2 = 6371 * toRad (Rabs (lon2 - lon1))).
Proof.
  split.
  - intros lat1 lat2 lon H.
    destruct (Rle_dec 0 (lat2 - lat1)) as [Hpos | Hneg].
    + rewrite Rabs_pos_eq in * by exact Hpos.
      apply calculateDistance_meridian_up. lra.
    + rewrite Rabs_left in * by lra.
      rewrite calculateDistance_sym.
      rewrite calculateDistance_meridian_up by lra. f_equal. f_equal. lra.
  - intros lon1 lon2 H.
    destruct (Rle_dec 0 (lon2 - lon1)) as [Hpos | Hneg].
    + rewrite Rabs_pos_eq in * by exact Hpos.
      apply calculateDistance_equator_up. lra.
    + rewrite Rabs_left in * by lra.
      rewrite calculateDistance_sym.
      rewrite calculateDistance_equator_up by lra. f_equal. f_equal. lra.
Qed.

(** One degree of latitude north of (32, 34). *)
Lemma calculateDistance_arc_witness :
  calculateDistance 32 34 33 34 = 6371 * toRad (Rabs (33 - 32)).
Proof.
  apply (proj1 calculateDistance_arc 32 33 34).
  replace (33 - 32) with 1 by lra. rewrite Rabs_pos_eq; lra.
Defined.

(** X3.  The distance depends on the two longitudes only through their
    difference, and does not change when a longitude is moved by a full
    turn of 360 degrees: a pair on either side of the date line
    measures as it should. *)
Theorem calculateDistance_longitudes (lat1 lon1 lat2 lon2 d : R) :
  calculateDistance lat1 (lon1 + d) lat2 (lon2 + d) =
    calculateDistance lat1 lon1 lat2 lon2 /\
  calculateDistance lat1 lon1 lat2 (lon2 + 360) =
    calculateDistance lat1 lon1 lat2 lon2 /\
  calculateDistance lat1 lon1 lat2 (lon2 - 360) =
    calculateDistance lat1 lon1 lat2 lon2.
Proof.
  unfold calculateDistance. split; [| split].
  - replace (lon2 + d - (lon1 + d)) with (lon2 - lon1) by lra. reflexivity.
  - replace (toRad (lon2 + 360 - lon1) / 2) with (toRad (lon2 - lon1) / 2 + PI)
      by (unfold toRad; field).
    rewrite neg_sin.
    replace (cos (toRad lat1) * cos (toRad lat2) * - sin (toRad (lon2 - lon1) / 2) *
             - sin (toRad (lon2 - lon1) / 2))
      with (cos (toRad lat1) * cos (toRad lat2) * sin (toRad (lon2 - lon1) / 2) *
            sin (toRad (lon2 - lon1) / 2)) by ring.
    reflexivity.
  - replace (toRad (lon2 - lon1) / 2) with (toRad (lon2 - 360 - lon1) / 2 + PI)
      by (unfold toRad; field).
    rewrite neg_sin.
    replace (cos (toRad lat1) * cos (toRad lat2) *
             - sin (toRad (lon2 - 360 - lon1) / 2) *
             - sin (toRad (lon2 - 360 - lon1) / 2))
      with (cos (toRad lat1) * cos (toRad lat2) *
            sin (toRad (lon2 - 360 - lon1) / 2) *
            sin (toRad (lon2 - 360 - lon1) / 2)) by ring.
    reflexivity.
Qed.

End GeoFacts.

(** ** Display formatting *)

Module FormatFacts.

Import Format.

Local Open Scope string_scope.
Local Open Scope Z_scope.

(** *** Rounding *)

Lemma Qfloor_unique (x : Q) (z : Z) :
  (inject_Z z <= x)%Q -> (x < inject_Z (z + 1))%Q -> Qfloor x = z.
Proof.
  intros Hlo Hhi.
  pose proof (Qfloor_le x) as Hfl.
  pose proof (Qlt_floor x) as Hfu.
  assert (z < Qfloor x + 1).
  { rewrite Zlt_Qlt. eapply Qle_lt_trans; eassumption. }
  assert (Qfloor x < z + 1).
  { rewrite Zlt_Qlt. eapply Qle_lt_trans; eassumption. }
  lia.
Qed.

Lemma Math_round_spec (x : Q) :
  (inject_Z (Math_round x) - (1 # 2) <= x /\
   x < inject_Z (Math_round x) + (1 # 2))%Q.
Proof.
  unfold Math_round.
  pose proof (Qfloor_le (x + (1 # 2))) as Hfl.
  pose proof (Qlt_floor (x + (1 # 2))) as Hfu.
  rewrite inject_Z_plus in Hfu. change (inject_Z 1) with 1%Q in Hfu.
  split; lra.
Qed.

Lemma Math_round_unique (x : Q) (z : Z) :
  (inject_Z z - (1 # 2) <= x)%Q -> (x < inject_Z z + (1 # 2))%Q ->
  Math_round x = z.
Proof.
  intros Hlo Hhi. unfold Math_round. apply Qfloor_unique.
  - lra.
  - rewrite inject_Z_plus. change (inject_Z 1) with 1%Q. lra.
Qed.

Lemma Math_round_nonneg (x : Q) : (0 <= x)%Q -> 0 <= Math_round x.
Proof.
  intros Hx. destruct (Math_round_spec x) as [_ Hhi].
  assert (inject_Z (-1) < inject_Z (Math_round x))%Q as H
    by (change (inject_Z (-1)) with (-1)%Q; lra).
  rewrite <- Zlt_Qlt in H. lia.
Qed.


(** *** Digits *)







Lemma NumberToString_small (n : Z) :
  0 <= n -> n < 10 ^ 21 -> NumberToString n = decimal n.
Proof.
  intros H0 H1. unfold NumberToString.
  destruct (Z.ltb_spec n 0) as [Hneg | _]; [lia |].
  rewrite Z.abs_eq by assumption.
  destruct (Z.ltb_spec n (10 ^ 21)) as [_ | Hbig]; [reflexivity | lia].
Qed.

(** *** Substrings *)


(** *** [toFixed(2)] below [10^21] *)



(** *** The two branches of [formatDistance] *)

Lemma formatDistance_meters (km : Q) :
  (0 <= km)%Q -> (km < 1)%Q ->
  0 <= Math_round (km * 1000) <= 1000 /\
  formatDistance km = decimal (Math_round (km * 1000)) ++ meters_suffix.
Proof.
  intros H0 H1.
  assert (0 <= Math_round (km * 1000) <= 1000) as Hn.
  { split; [apply Math_round_nonneg; lra |].
    destruct (Math_round_spec (km * 1000)) as [Hlo _].
    assert (inject_Z (Math_round (km * 1000)) < inject_Z 1001)%Q as H
      by (change (inject_Z 1001) with 1001%Q; lra).
    rewrite <- Zlt_Qlt in H. lia. }
  split; [exact Hn |].
  unfold formatDistance.
  assert (Qltb km 1 = true) as ->.
  { unfold Qltb. apply negb_true_iff, not_true_is_false.
    rewrite Qle_bool_iff. lra. }
  rewrite NumberToString_small by lia. reflexivity.
Qed.





(** C10.  Every [km] with [0.9995 <= km < 1], [0.9996] among them, is
    below 1 km and yet shown as "1000" meters: the rounding to meters
    happens inside the sub-kilometer branch. *)
Theorem formatDistance_1000_meters :
  (forall km : Q, (9995 # 10000 <= km)%Q -> (km < 1)%Q ->
     formatDistance km = "1000 מטר") /\
  ((9996 # 10000 < 1)%Q /\ formatDistance (9996 # 10000) = "1000 מטר").
Proof.
  split; [| split; vm_compute; reflexivity].
  intros km Hlo Hhi.
  destruct (formatDistance_meters km) as [_ ->]; [lra | exact Hhi |].
  rewrite (Math_round_unique (km * 1000) 1000).
  - reflexivity.
  - change (inject_Z 1000) with 1000%Q. lra.
  - change (inject_Z 1000) with 1000%Q. lra.
Qed.

Lemma formatDistance_1000_meters_witness :
  formatDistance (9999 # 10000) = "1000 מטר".
Proof.
  apply (proj1 formatDistance_1000_meters (9999 # 10000));
    [vm_compute; discriminate | vm_compute; reflexivity].
Defined.

(** *** The four forms of [calculateWalkingTime] *)






End FormatFacts.

(** ** Station search *)

Module SearchFacts.

Import Search.

Local Open Scope string_scope.
Local Open Scope list_scope.
Local Open Scope R_scope.

(** *** De-duplication *)

Lemma distance_sym (a b : SearchResult) : distance a b = distance b a.
Proof. apply GeoFacts.calculateDistance_sym. Qed.

Lemma distance_self (a : SearchResult) : distance a a = 0.
Proof. apply GeoFacts.calculateDistance_self. Qed.

Lemma within_50m_true (a b : SearchResult) :
  within_50m a b = true <-> distance a b < 0.05.
Proof. apply Rltb_true. Qed.

Lemma within_50m_false (a b : SearchResult) :
  within_50m a b = false <-> 0.05 <= distance a b.
Proof. apply Rltb_false. Qed.

Lemma nth_error_snoc (l : list SearchResult) (z x : SearchResult) (i : nat) :
  nth_error (l ++ [z]) i = Some x ->
  (i < List.length l)%nat /\ nth_error l i = Some x \/
  i = List.length l /\ x = z.
Proof.
  intros H. destruct (Nat.lt_ge_cases i (List.length l)) as [Hlt | Hge].
  - left. rewrite nth_error_app1 in H by assumption. auto.
  - right. rewrite nth_error_app2 in H by assumption.
    destruct (i - List.length l)%nat as [| k] eqn:Hk; simpl in H.
    + split; [lia | congruence].
    + destruct k; discriminate.
Qed.

Lemma pairwise_far_snoc (l : list SearchResult) (z : SearchResult) :
  pairwise_far l -> (forall x, In x l -> 0.05 <= distance z x) ->
  pairwise_far (l ++ [z]).
Proof.
  intros Hl Hz i j x y Hij Hi Hj.
  apply nth_error_snoc in Hi. apply nth_error_snoc in Hj.
  destruct Hi as [[_ Hi] | [Hi ->]], Hj as [[_ Hj] | [Hj ->]].
  - exact (Hl i j x y Hij Hi Hj).
  - rewrite distance_sym. apply Hz. eapply nth_error_In; eassumption.
  - apply Hz. eapply nth_error_In; eassumption.
  - lia.
Qed.

Lemma push_unique_spec (u : list SearchResult) (r : SearchResult) :
  pairwise_far u ->
  pairwise_far (push_unique u r) /\
  (forall x, In x u -> In x (push_unique u r)) /\
  (exists y, In y (push_unique u r) /\ distance r y < 0.05).
Proof.
  intros Hu. unfold push_unique.
  destruct (existsb (within_50m r) u) eqn:Hdup.
  - split; [exact Hu |]. split; [auto |].
    apply existsb_exists in Hdup. destruct Hdup as (y & Hy & Hclose).
    exists y. split; [exact Hy |]. apply within_50m_true. exact Hclose.
  - split; [| split].
    + apply pairwise_far_snoc; [exact Hu |].
      intros x Hx. apply within_50m_false.
      destruct (within_50m r x) eqn:Hc; [| reflexivity].
      assert (existsb (within_50m r) u = true) as Habs
        by (apply existsb_exists; eauto).
      congruence.
    + intros x Hx. apply in_or_app. auto.
    + exists r. split; [apply in_or_app; simpl; auto |].
      rewrite distance_self. lra.
Qed.

Lemma fold_push_unique_spec (l acc : list SearchResult) :
  pairwise_far acc ->
  pairwise_far (fold_left push_unique l acc) /\
  (forall x, In x acc -> In x (fold_left push_unique l acc)) /\
  (forall r, In r l ->
     exists y, In y (fold_left push_unique l acc) /\ distance r y < 0.05).
Proof.
  revert acc. induction l as [| r l IH]; intros acc Hacc; simpl.
  - split; [exact Hacc |]. split; [auto |]. intros r [].
  - destruct (push_unique_spec acc r Hacc) as (Hfar & Hkeep & y & Hy & Hclose).
    destruct (IH (push_unique acc r) Hfar) as (Hfar' & Hkeep' & Hcover).
    split; [exact Hfar' |]. split; [auto |].
    intros r' [<- | Hr'].
    + exists y. auto.
    + apply Hcover. exact Hr'.
Qed.


(** *** Nothing found *)

Lemma fold_search_one (fetch : string -> FetchOutcome) (qs : list string)
    (allResults : list SearchResult) (log : list Effect) :
  fold_left (search_one fetch) qs (allResults, log) =
  (allResults ++ flat_map (fun q => results_of (fetch q)) qs,
   log ++ warnings_of fetch qs).
Proof.
  revert allResults log. induction qs as [| q qs IH]; intros allResults log; simpl.
  - rewrite !app_nil_r. reflexivity.
  - destruct (fetch q); rewrite IH; simpl;
      rewrite <- ?app_assoc, ?app_nil_r; reflexivity.
Qed.

Lemma flat_map_nil {A B : Type} (f : A -> list B) (l : list A) :
  (forall x, In x l -> f x = []) -> flat_map f l = [].
Proof.
  induction l as [| x l IH]; intros H; simpl; [reflexivity |].
  rewrite (H x) by (simpl; auto). apply IH. intros y Hy. apply H. simpl; auto.
Qed.

Lemma filter_status_warnings (fetch : string -> FetchOutcome) (qs : list string) :
  filter is_status (warnings_of fetch qs) = [].
Proof.
  unfold warnings_of. induction qs as [| q qs IH]; simpl; [reflexivity |].
  rewrite filter_app, IH. destruct (fetch q); reflexivity.
Qed.

(** C8.  For every query and every behaviour of the network the search
    returns a list (of at most ten results) and ends by showing one
    status; when every request failed or found nothing, the list is
    empty and the statuses shown are the "searching" notice and the
    "nothing found" warning: no error status, and besides them only
    console warnings. *)
Theorem searchBusStation_soft_failure
    (fetch : string -> FetchOutcome) (query : string) :
  ((List.length (fst (searchBusStation fetch query)) <= 10)%nat /\
   exists log message type,
     snd (searchBusStation fetch query) = log ++ [ShowStatus message type]) /\
  ((forall q, In q (searches query) -> results_of (fetch q) = []) ->
   searchBusStation fetch query =
     ([], [ShowStatus searching_msg Info] ++ warnings_of fetch (searches query)
            ++ [ShowStatus not_found_msg Warning]) /\
   filter is_status (snd (searchBusStation fetch query)) =
     [ShowStatus searching_msg Info; ShowStatus not_found_msg Warning]).
Proof.
  unfold searchBusStation. rewrite fold_search_one. cbn [app].
  set (allResults := flat_map (fun q => results_of (fetch q)) (searches query)).
  set (log := ShowStatus searching_msg Info :: warnings_of fetch (searches query)).
  split.
  - destruct (filter_transit (uniqueResults allResults)) as [filtered |].
    + destruct ((List.length (firstn 10 filtered) =? 0)%nat &&
                (0 <? List.length (uniqueResults allResults))%nat); cbn [fst snd].
      * split; [rewrite length_firstn; lia | exists log; do 2 eexists; reflexivity].
      * destruct (List.length (firstn 10 filtered) =? 0)%nat; cbn [fst snd].
        -- split; [simpl; lia | exists log; do 2 eexists; reflexivity].
        -- split; [rewrite length_firstn; lia | exists log; do 2 eexists; reflexivity].
    + cbn [fst snd]. split; [simpl; lia |].
      exists (log ++ [ConsoleError]). do 2 eexists.
      unfold log. rewrite <- !app_assoc. reflexivity.
  - intros Hnone.
    assert (allResults = []) as -> by (apply flat_map_nil; exact Hnone).
    change (uniqueResults []) with (@nil SearchResult).
    change (filter_transit []) with (Some (@nil SearchResult)).
    cbv iota beta. change (firstn 10 (@nil SearchResult)) with (@nil SearchResult).
    cbn [List.length Nat.eqb Nat.ltb Nat.leb andb fst snd].
    split; [reflexivity |].
    unfold log. cbn [filter is_status].
    rewrite filter_app, filter_status_warnings. reflexivity.
Qed.

Lemma searchBusStation_soft_failure_witness :
  searchBusStation (fun _ => FetchRejected) "central" =
    ([], [ShowStatus searching_msg Info; ConsoleWarn; ConsoleWarn; ConsoleWarn;
          ConsoleWarn; ShowStatus not_found_msg Warning]).
Proof.
  destruct (searchBusStation_soft_failure (fun _ => FetchRejected) "central")
    as [_ H].
  destruct H as [H _]; [intros q _; reflexivity |].
  rewrite H. reflexivity.
Defined.


(** *** The order of the retained results *)

Lemma fold_push_unique_prefix (l acc : list SearchResult) :
  exists rest, fold_left push_unique l acc = acc ++ rest /\ incl rest l.
Proof.
  revert acc. induction l as [| r l IH]; intros acc; simpl.
  - exists []. rewrite app_nil_r. split; [reflexivity | apply incl_refl].
  - destruct (IH (push_unique acc r)) as (rest & -> & Hrest).
    unfold push_unique. destruct (existsb (within_50m r) acc).
    + exists rest. split; [reflexivity | apply incl_tl; exact Hrest].
    + exists (r :: rest). rewrite <- app_assoc. split; [reflexivity |].
      apply incl_cons; [simpl; auto | apply incl_tl; exact Hrest].
Qed.


Lemma far_from_prefix (acc l : list SearchResult) (r : SearchResult) :
  pairwise_far (acc ++ r :: l) -> existsb (within_50m r) acc = false.
Proof.
  intros Hfar. destruct (existsb (within_50m r) acc) eqn:Hdup; [| reflexivity].
  apply existsb_exists in Hdup. destruct Hdup as (x & Hx & Hclose).
  apply within_50m_true in Hclose.
  destruct (In_nth_error _ _ Hx) as (i & Hi).
  assert (i < List.length acc)%nat as Hlt
    by (apply nth_error_Some; congruence).
  assert (0.05 <= distance r x) as Hge.
  { apply (Hfar (List.length acc) i r x); [lia | |].
    - rewrite nth_error_app2, Nat.sub_diag by lia. reflexivity.
    - rewrite nth_error_app1 by exact Hlt. exact Hi. }
  lra.
Qed.

Lemma fold_push_unique_far (l acc : list SearchResult) :
  pairwise_far (acc ++ l) -> fold_left push_unique l acc = acc ++ l.
Proof.
  revert acc. induction l as [| r l IH]; intros acc Hfar; simpl.
  - rewrite app_nil_r. reflexivity.
  - unfold push_unique at 2. rewrite (far_from_prefix acc l r Hfar).
    rewrite IH; rewrite <- app_assoc; [reflexivity | exact Hfar].
Qed.

Lemma pairwise_far_nil : pairwise_far [].
Proof. intros i j x y _ Hi. destruct i; discriminate. Qed.

Lemma uniqueResults_pairwise_far (l : list SearchResult) :
  pairwise_far (uniqueResults l).
Proof.
  unfold uniqueResults.
  exact (proj1 (fold_push_unique_spec l [] pairwise_far_nil)).
Qed.

(** X5.  De-duplication changes nothing in a list whose entries are
    already pairwise at least 0.05 km apart; hence running it on its own
    output gives that output again. *)
Theorem uniqueResults_fixed_point :
  (forall l, pairwise_far l -> uniqueResults l = l) /\
  (forall l, uniqueResults (uniqueResults l) = uniqueResults l).
Proof.
  assert (forall l, pairwise_far l -> uniqueResults l = l) as Hfix.
  { intros l Hfar. unfold uniqueResults. rewrite fold_push_unique_far; auto. }
  split; [exact Hfix |].
  intros l. apply Hfix. apply uniqueResults_pairwise_far.
Qed.

Lemma uniqueResults_fixed_point_witness :
  let r := {| display_name := Some "Central Bus Station"; type := None;
              class := None; lat := 32; lon := 34 |} in
  uniqueResults [r] = [r].
Proof.
  intros r. apply (proj1 uniqueResults_fixed_point).
  intros i j x y Hij Hi Hj.
  destruct i as [| [| i]], j as [| [| j]]; try discriminate; lia.
Defined.

(** X6.  The results retained from a prefix of the raw list are not
    displaced by what follows: de-duplicating [l1 ++ l2] gives the
    de-duplication of [l1] followed by entries of [l2].  So the results
    of an earlier query come before those of a later one, and the first
    raw result is always the first one retained. *)
Theorem uniqueResults_prefix_stable (l1 l2 : list SearchResult) :
  (exists rest, uniqueResults (l1 ++ l2) = uniqueResults l1 ++ rest /\
                incl rest l2) /\
  (forall r, exists rest, uniqueResults (r :: l2) = r :: rest).
Proof.
  split.
  - unfold uniqueResults. rewrite fold_left_app. apply fold_push_unique_prefix.
  - intros r. unfold uniqueResults. simpl.
    destruct (fold_push_unique_prefix l2 (push_unique [] r)) as (rest & -> & _).
    exists rest. reflexivity.
Qed.

(** *** What the search returns *)



Lemma In_firstn {A : Type} (n : nat) (l : list A) (x : A) :
  In x (firstn n l) -> In x l.
Proof.
  intros H. rewrite <- (firstn_skipn n l). apply in_or_app. auto.
Qed.


Lemma filter_transit_Some (l kept : list SearchResult) :
  filter_transit l = Some kept ->
  kept = filter transit l /\ forall r, In r l -> display_name r <> None.
Proof.
  revert kept. induction l as [| r l IH]; intros kept H; cbn [filter_transit] in H.
  - injection H as <-. split; [reflexivity | intros r []].
  - destruct (is_transit r) as [keep |] eqn:Hr; [| discriminate].
    destruct (filter_transit l) as [kept' |]; [| discriminate].
    destruct (IH kept' eq_refl) as (-> & Hnames). injection H as <-.
    split.
    + cbn [filter].
      replace (transit r) with keep
        by (unfold transit; rewrite Hr; destruct keep; reflexivity).
      destruct keep; reflexivity.
    + intros r' [<- | Hr']; [| auto].
      unfold is_transit in Hr. destruct (display_name r); congruence.
Qed.



(** The list returned, in one expression. *)
Lemma searchBusStation_fst (fetch : string -> FetchOutcome) (query : string) :
  fst (searchBusStation fetch query) =
    match filter_transit (uniqueResults (fetched fetch query)) with
    | None => []
    | Some [] => firstn 10 (uniqueResults (fetched fetch query))
    | Some filtered => firstn 10 filtered
    end.
Proof.
  unfold searchBusStation. rewrite fold_search_one. cbn [app].
  fold (fetched fetch query).
  destruct (filter_transit (uniqueResults (fetched fetch query)))
    as [[| r filtered] |]; [| reflexivity | reflexivity].
  change (firstn 10 (@nil SearchResult)) with (@nil SearchResult).
  cbn [List.length Nat.eqb andb].
  destruct (uniqueResults (fetched fetch query)); reflexivity.
Qed.




Lemma searchBusStation_display_names
    (fetch : string -> FetchOutcome) (query : string) (r : SearchResult) :
  In r (fst (searchBusStation fetch query)) -> display_name r <> None.
Proof.
  rewrite searchBusStation_fst.
  destruct (filter_transit (uniqueResults (fetched fetch query)))
    as [filtered |] eqn:Hf; [| intros []].
  apply filter_transit_Some in Hf. destruct Hf as (-> & Hnames).
  destruct (filter transit (uniqueResults (fetched fetch query))) eqn:Hfu.
  - intros Hr. apply In_firstn in Hr. auto.
  - rewrite <- Hfu. intros Hr. apply In_firstn, filter_In in Hr.
    apply Hnames. tauto.
Qed.

(** *** The statuses of a search *)






End SearchFacts.

(** ** The tracking session *)

Module TrackerFacts.

Import Tracker.

Local Open Scope string_scope.
Local Open Scope list_scope.
Local Open Scope R_scope.

(** *** The alert latch *)

Lemma updateDistanceDisplay_enter (d : R) (w : World) :
  d <= ALERT_DISTANCE -> hasAlerted (globals w) = false ->
  log (updateDistanceDisplay d w) = log w ++ alert_effects ++ [DrawRouteLine] /\
  hasAlerted (globals (updateDistanceDisplay d w)) = true.
Proof.
  intros Hd Hlatch. unfold updateDistanceDisplay.
  apply Rleb_true in Hd. rewrite Hd. cbn. rewrite Hlatch. cbn.
  rewrite <- !app_assoc. auto.
Qed.

Lemma updateDistanceDisplay_stay (d : R) (w : World) :
  d <= ALERT_DISTANCE -> hasAlerted (globals w) = true ->
  log (updateDistanceDisplay d w) = log w ++ [DrawRouteLine] /\
  hasAlerted (globals (updateDistanceDisplay d w)) = true.
Proof.
  intros Hd Hlatch. unfold updateDistanceDisplay.
  apply Rleb_true in Hd. rewrite Hd. cbn. rewrite Hlatch. cbn. auto.
Qed.


Lemma updateDistanceDisplay_latch (d : R) (w : World) :
  hasAlerted (globals (updateDistanceDisplay d w)) = Rleb d ALERT_DISTANCE.
Proof.
  unfold updateDistanceDisplay. destruct (Rleb d ALERT_DISTANCE); cbn;
    [destruct (hasAlerted (globals w)) eqn:Hlatch; cbn; rewrite ?Hlatch |];
    reflexivity.
Qed.

(** What [updateDistanceDisplay] leaves alone. *)
Lemma updateDistanceDisplay_frame (d : R) (w : World) :
  host (updateDistanceDisplay d w) = host w /\
  userLocation (globals (updateDistanceDisplay d w)) = userLocation (globals w) /\
  selectedStation (globals (updateDistanceDisplay d w)) = selectedStation (globals w) /\
  trackingInterval (globals (updateDistanceDisplay d w)) = trackingInterval (globals w) /\
  isTracking (globals (updateDistanceDisplay d w)) = isTracking (globals w).
Proof.
  unfold updateDistanceDisplay.
  destruct (Rleb d ALERT_DISTANCE); cbn;
    [destruct (hasAlerted (globals w)) |]; cbn; auto.
Qed.







Lemma existsb_eqb_In (id : nat) (l : list nat) :
  existsb (Nat.eqb id) l = true <-> In id l.
Proof.
  rewrite existsb_exists. split.
  - intros (x & Hx & Heq). apply Nat.eqb_eq in Heq. subst. exact Hx.
  - intros H. exists id. split; [exact H | apply Nat.eqb_refl].
Qed.

Lemma polled_spec (id : nat) (pos : Location) (st : Station) (w : World) :
  In id (timers (host w)) -> selectedStation (globals w) = Some st ->
  polled id pos w =
    Some (updateDistanceDisplay (distance_to st pos)
            (w |> tick |> settle (nextRequest (host w)) |> position_found pos)).
Proof.
  intros Hid Hst. apply existsb_eqb_In in Hid.
  unfold polled. cbn [run step]. rewrite Hid.
  cbn. rewrite Nat.eqb_refl.
  unfold tick_resumed, measure_and_display. cbn. rewrite Hst. reflexivity.
Qed.




(** *** Reachable worlds *)

Lemma measure_and_display_frame (w w' : World) :
  measure_and_display w = Some w' ->
  host w' = host w /\
  userLocation (globals w') = userLocation (globals w) /\
  selectedStation (globals w') = selectedStation (globals w) /\
  trackingInterval (globals w') = trackingInterval (globals w) /\
  isTracking (globals w') = isTracking (globals w).
Proof.
  unfold measure_and_display.
  destruct (userLocation (globals w)) eqn:Hu; [| discriminate].
  destruct (selectedStation (globals w)) eqn:Hs; [| discriminate].
  intros [= <-]. rewrite <- Hu, <- Hs. apply updateDistanceDisplay_frame.
Qed.

(** No function of the script sets [selectedStation] back to [null]. *)
Lemma step_keeps_station (w w' : World) (e : Event) :
  step w e = Some w' ->
  selectedStation (globals w') = None -> selectedStation (globals w) = None.
Proof.
  destruct e as [st | | | id | req pos | req message]; cbn [step].
  - intros [= <-]. cbn. discriminate.
  - intros [= <-]. unfold startTracking.
    destruct (selectedStation (globals w)) eqn:Hst; cbn; [rewrite Hst |]; auto.
  - intros [= <-]. unfold stopTracking.
    destruct (trackingInterval (globals w)); cbn; auto.
  - destruct (existsb (Nat.eqb id) (timers (host w))); [| discriminate].
    intros [= <-]. cbn. auto.
  - destruct (lookup req (requests (host w))) as [k |]; [| discriminate].
    intros [= <-]. destruct k.
    + cbn. auto.
    + unfold startTracking_resumed.
      match goal with |- context [measure_and_display ?x] =>
        destruct (measure_and_display x) as [w1 |] eqn:Hm end.
      * apply measure_and_display_frame in Hm.
        destruct Hm as (_ & _ & Hst & _). cbn in *. rewrite Hst. auto.
      * cbn. auto.
    + unfold tick_resumed.
      match goal with |- context [measure_and_display ?x] =>
        destruct (measure_and_display x) as [w1 |] eqn:Hm end.
      * apply measure_and_display_frame in Hm.
        destruct Hm as (_ & _ & Hst & _). cbn in *. rewrite Hst. auto.
      * cbn. auto.
  - destruct (lookup req (requests (host w))) as [k |]; [| discriminate].
    intros [= <-]. destruct k; cbn; auto.
Qed.

Lemma lookup_Forall (req : nat) (l : list (nat * Continuation)) (k : Continuation)
    (P : nat * Continuation -> Prop) :
  Forall P l -> lookup req l = Some k -> exists r, P (r, k).
Proof.
  induction 1 as [| [r k'] l Hp Hl IH]; cbn; [discriminate |].
  destruct (Nat.eqb r req).
  - intros [= <-]. eauto.
  - exact IH.
Qed.

Lemma drop_Forall (req : nat) (l : list (nat * Continuation))
    (P : nat * Continuation -> Prop) :
  Forall P l -> Forall P (drop req l).
Proof.
  induction 1 as [| [r k] l Hp Hl IH]; cbn; [constructor |].
  destruct (Nat.eqb r req); [assumption | constructor; assumption].
Qed.

Lemma no_station_idle (w : World) :
  reachable w -> selectedStation (globals w) = None -> idle w.
Proof.
  induction 1 as [| w w' e Hreach IH Hstep]; intros Hnone.
  - repeat split. cbn. repeat constructor.
  - specialize (IH (step_keeps_station w w' e Hstep Hnone)).
    destruct IH as (Htr & Hint & Htim & Hreq).
    pose proof (step_keeps_station w w' e Hstep Hnone) as Hst.
    destruct e as [st | | | id | req pos | req message]; cbn [step] in Hstep.
    + injection Hstep as <-. cbn in Hnone. discriminate.
    + injection Hstep as <-. unfold startTracking. rewrite Hst.
      repeat split; assumption.
    + injection Hstep as <-. unfold stopTracking. rewrite Hint.
      repeat split; cbn; assumption.
    + rewrite Htim in Hstep. cbn in Hstep. discriminate.
    + destruct (lookup req (requests (host w))) as [k |] eqn:Hk; [| discriminate].
      destruct (lookup_Forall _ _ _ _ Hreq Hk) as [r Hload]. cbn in Hload. subst k.
      injection Hstep as <-.
      repeat split; cbn; try assumption. apply drop_Forall. assumption.
    + destruct (lookup req (requests (host w))) as [k |] eqn:Hk; [| discriminate].
      destruct (lookup_Forall _ _ _ _ Hreq Hk) as [r Hload]. cbn in Hload. subst k.
      injection Hstep as <-.
      repeat split; cbn; try assumption. apply drop_Forall. assumption.
Qed.

Lemma reachable_run (es : list Event) (w w' : World) :
  reachable w -> run w es = Some w' -> reachable w'.
Proof.
  revert w. induction es as [| e es IH]; intros w Hw; cbn [run].
  - intros [= <-]. exact Hw.
  - destruct (step w e) as [w1 |] eqn:Hstep; [| discriminate].
    apply IH. exact (reachable_step w w1 e Hw Hstep).
Qed.

(** Timer ids start at 1, so the id in [trackingInterval] is never the
    falsy 0 and [if (trackingInterval)] tests it against [null] only. *)
Lemma timer_ids_positive (w : World) :
  reachable w ->
  (1 <= nextTimer (host w))%nat /\
  forall id, trackingInterval (globals w) = Some id -> (1 <= id)%nat.
Proof.
  induction 1 as [| w w' e Hreach [Hnext Hid] Hstep].
  - split; [cbn; lia | discriminate].
  - destruct e as [st | | | id | req pos | req message]; cbn [step] in Hstep.
    + injection Hstep as <-. split; [exact Hnext | exact Hid].
    + injection Hstep as <-. unfold startTracking.
      destruct (selectedStation (globals w)); split; cbn; assumption.
    + injection Hstep as <-. unfold stopTracking.
      destruct (trackingInterval (globals w)) eqn:Hint; split; cbn;
        rewrite ?Hint; try assumption; discriminate.
    + destruct (existsb (Nat.eqb id) (timers (host w))); [| discriminate].
      injection Hstep as <-. split; [exact Hnext | exact Hid].
    + destruct (lookup req (requests (host w))) as [k |]; [| discriminate].
      injection Hstep as <-. destruct k.
      * split; [exact Hnext | exact Hid].
      * unfold startTracking_resumed.
        match goal with |- context [measure_and_display ?x] =>
          destruct (measure_and_display x) as [w1 |] eqn:Hm end.
        -- apply measure_and_display_frame in Hm.
           destruct Hm as (Hhost & _). cbn in Hhost |- *. rewrite Hhost.
           split; [lia |]. intros id [= <-]. exact Hnext.
        -- split; [exact Hnext | exact Hid].
      * unfold tick_resumed.
        match goal with |- context [measure_and_display ?x] =>
          destruct (measure_and_display x) as [w1 |] eqn:Hm end.
        -- apply measure_and_display_frame in Hm.
           destruct Hm as (Hhost & _ & _ & Hint & _). cbn in Hhost, Hint.
           rewrite Hhost, Hint. split; [exact Hnext | exact Hid].
        -- split; [exact Hnext | exact Hid].
    + destruct (lookup req (requests (host w))) as [k |]; [| discriminate].
      injection Hstep as <-. destruct k; split; assumption.
Qed.

(** *** Starting without a station *)

(** C4.  Wherever the page has got to, [startTracking] with no station
    selected only shows the "select a station first" error status:
    [isTracking] is false before and after, no timer exists or is
    created, no position request is made, and the globals, the document
    and the host are as they were. *)
Theorem startTracking_without_station (w : World) :
  reachable w -> selectedStation (globals w) = None ->
  step w ClickStart = Some (startTracking w) /\
  log (startTracking w) = log w ++ [ShowStatus select_station_msg Error] /\
  isTracking (globals w) = false /\
  isTracking (globals (startTracking w)) = false /\
  timers (host (startTracking w)) = [] /\
  globals (startTracking w) = globals w /\
  dom (startTracking w) = dom w /\
  host (startTracking w) = host w.
Proof.
  intros Hreach Hnone.
  destruct (no_station_idle w Hreach Hnone) as (Htr & _ & Htim & _).
  assert (startTracking w = emit (ShowStatus select_station_msg Error) w) as Heq
    by (unfold startTracking; rewrite Hnone; reflexivity).
  split; [reflexivity |]. rewrite Heq. cbn.
  repeat split; assumption.
Qed.

Lemma startTracking_without_station_witness :
  step initial ClickStart = Some (startTracking initial) /\
  log (startTracking initial) = log initial ++ [ShowStatus select_station_msg Error] /\
  isTracking (globals initial) = false /\
  isTracking (globals (startTracking initial)) = false /\
  timers (host (startTracking initial)) = [] /\
  globals (startTracking initial) = globals initial /\
  dom (startTracking initial) = dom initial /\
  host (startTracking initial) = host initial.
Proof.
  apply (startTracking_without_station initial).
  - exact reachable_initial.
  - reflexivity.
Defined.

(** *** A session at the station *)

Lemma at_station_in_zone : Rleb 0 ALERT_DISTANCE = true.
Proof. apply Rleb_true. unfold ALERT_DISTANCE. lra. Qed.

(** Evaluates a run whose positions are all at the station. *)
Lemma updateDistanceDisplay_at_station (w : World) :
  updateDistanceDisplay 0 w =
  (if negb (hasAlerted (globals w)) then
     w |> upd_dom (set_resultsShown true)
       |> upd_dom (set_alert true)
       |> emit PlayAlertSound
       |> upd_globals (set_hasAlerted true)
       |> emit (ShowStatus alert_msg Warning)
       |> emit ShowBrowserNotification
   else
     w |> upd_dom (set_resultsShown true)
       |> upd_dom (set_alert true))
  |> emit DrawRouteLine.
Proof.
  unfold updateDistanceDisplay. rewrite at_station_in_zone. reflexivity.
Qed.

Ltac at_station :=
  cbn -[Geo.calculateDistance updateDistanceDisplay IZR];
  rewrite ?GeoFacts.calculateDistance_self, ?updateDistanceDisplay_at_station;
  reflexivity.

Lemma step_selected : step initial (ClickSuggestion central) = Some selected.
Proof. reflexivity. Qed.

Lemma step_starting : step selected ClickStart = Some starting.
Proof. reflexivity. Qed.

Lemma step_tracking :
  step starting (PositionFound 1 (at_central 10)) = Some tracking.
Proof. at_station. Qed.

Lemma step_polling : step tracking (TimerFires 1) = Some polling.
Proof. reflexivity. Qed.

Lemma step_stopped : step polling ClickStop = Some stopped.
Proof. reflexivity. Qed.

Lemma step_late : step stopped (PositionFound 2 (at_central 25)) = Some late.
Proof. at_station. Qed.

Lemma run_polling :
  run initial [ClickSuggestion central; ClickStart;
               PositionFound 1 (at_central 10); TimerFires 1] = Some polling.
Proof.
  cbn [run]. rewrite step_selected, step_starting, step_tracking, step_polling.
  reflexivity.
Qed.

Lemma polling_reachable : reachable polling.
Proof. exact (reachable_run _ _ _ reachable_initial run_polling). Qed.

(** *** Failed position fetches *)

Lemma failed_tick_spec (id : nat) (message : string) (w : World) :
  In id (timers (host w)) ->
  exists w',
    failed_tick id message w = Some w' /\
    globals w' = globals w /\ dom w' = dom w /\
    timers (host w') = timers (host w) /\
    requests (host w') = requests (host w) /\
    log w' = log w ++ [ConsoleError].
Proof.
  intros Hid. apply existsb_eqb_In in Hid.
  unfold failed_tick. cbn [run step]. rewrite Hid.
  cbn. rewrite Nat.eqb_refl. cbn.
  eexists. split; [reflexivity |]. cbn. rewrite Nat.eqb_refl. repeat split.
Qed.

(** Timer and position-error events, however interleaved, leave the
    globals, the document and the timers as they are. *)
Lemma ticks_and_errors_frame (es : list Event) (w w' : World) :
  Forall tick_or_error es -> run w es = Some w' ->
  globals w' = globals w /\ dom w' = dom w /\
  timers (host w') = timers (host w).
Proof.
  intros Hes. revert w. induction Hes as [| e es He Hes IH]; intros w; cbn [run].
  - intros [= <-]. auto.
  - destruct (step w e) as [w1 |] eqn:Hstep; [| discriminate].
    intros Hrun. destruct (IH w1 Hrun) as (Hg & Hd & Ht).
    rewrite Hg, Hd, Ht. clear IH Hrun Hg Hd Ht.
    destruct e as [st | | | id | req pos | req message]; try contradiction;
      cbn [step] in Hstep.
    + destruct (existsb (Nat.eqb id) (timers (host w))); [| discriminate].
      injection Hstep as <-. auto.
    + destruct (lookup req (requests (host w))) as [k |]; [| discriminate].
      injection Hstep as <-. destruct k; auto.
Qed.

(** C5.  With the interval timer set, any number [n] of rounds in which
    the timer fires and the position request fails runs to the end: the
    globals ([isTracking], [hasAlerted], the last position, the
    station), the document, the timers and the requests in flight are
    as before, each failure is logged to the console, and the timer can
    fire again.  The same holds of the globals and timers under any
    interleaving of timer and position-error events. *)
Theorem failed_ticks_keep_polling
    (w : World) (id : nat) (message : string) (n : nat) :
  In id (timers (host w)) ->
  (exists w',
     failed_ticks id message n w = Some w' /\
     globals w' = globals w /\ dom w' = dom w /\
     timers (host w') = timers (host w) /\
     requests (host w') = requests (host w) /\
     log w' = log w ++ repeat ConsoleError n /\
     step w' (TimerFires id) = Some (tick w')) /\
  (forall (es : list Event) (w' : World),
     Forall tick_or_error es -> run w es = Some w' ->
     globals w' = globals w /\ timers (host w') = timers (host w)).
Proof.
  intros Hid. split.
  - revert w Hid. induction n as [| n IH]; intros w Hid.
    + exists w. cbn. rewrite app_nil_r.
      apply existsb_eqb_In in Hid. rewrite Hid. repeat split.
    + destruct (failed_tick_spec id message w Hid)
        as (w1 & Hrun & Hg & Hd & Ht & Hr & Hl).
      destruct (IH w1) as (w' & Hrun' & Hg' & Hd' & Ht' & Hr' & Hl' & Hs');
        [rewrite Ht; exact Hid |].
      exists w'. cbn [failed_ticks]. rewrite Hrun.
      split; [exact Hrun' |].
      rewrite Hg', Hd', Ht', Hr', Hl', Hl. cbn [repeat].
      rewrite <- app_assoc. repeat split; assumption.
  - intros es w' Hes Hrun.
    destruct (ticks_and_errors_frame es w w' Hes Hrun) as (Hg & _ & Ht). auto.
Qed.

Lemma failed_ticks_keep_polling_witness :
  exists w',
    failed_ticks 1 "TIMEOUT" 3 polling = Some w' /\
    globals w' = globals polling /\ dom w' = dom polling /\
    timers (host w') = timers (host polling) /\
    requests (host w') = requests (host polling) /\
    log w' = log polling ++ repeat ConsoleError 3 /\
    step w' (TimerFires 1) = Some (tick w').
Proof.
  apply (failed_ticks_keep_polling polling 1 "TIMEOUT" 3). cbn. auto.
Defined.

(** *** Stopping with a request in flight *)

Lemma stopTracking_frame (w : World) :
  requests (host (stopTracking w)) = requests (host w) /\
  selectedStation (globals (stopTracking w)) = selectedStation (globals w) /\
  userLocation (globals (stopTracking w)) = userLocation (globals w).
Proof.
  unfold stopTracking. destruct (trackingInterval (globals w)); cbn; auto.
Qed.

Lemma stopTracking_resets (w : World) :
  isTracking (globals (stopTracking w)) = false /\
  hasAlerted (globals (stopTracking w)) = false /\
  trackingInterval (globals (stopTracking w)) = None.
Proof.
  unfold stopTracking. destruct (trackingInterval (globals w)) eqn:Hint; cbn;
    rewrite ?Hint; repeat split.
Qed.

Lemma stopTracking_clears (w : World) (id : nat) :
  trackingInterval (globals w) = Some id ->
  step (stopTracking w) (TimerFires id) = None.
Proof.
  intros Hid. cbn [step].
  destruct (existsb (Nat.eqb id) (timers (host (stopTracking w)))) eqn:Hin;
    [| reflexivity].
  apply existsb_eqb_In in Hin. unfold stopTracking in Hin.
  rewrite Hid in Hin. cbn in Hin. apply remove_In in Hin. contradiction.
Qed.

(** A position that arrives for a tick's request is applied whatever
    [isTracking] says. *)
Lemma tick_position_applied (w : World) (req : nat) (pos : Location) (st : Station) :
  lookup req (requests (host w)) = Some AfterTick ->
  selectedStation (globals w) = Some st ->
  step w (PositionFound req pos) =
    Some (updateDistanceDisplay (distance_to st pos)
            (w |> settle req |> position_found pos)).
Proof.
  intros Hreq Hst. cbn [step]. rewrite Hreq.
  unfold tick_resumed, measure_and_display. cbn. rewrite Hst. reflexivity.
Qed.

(** [stopTracking] clears the one timer whose id is in
    [trackingInterval]; any other timer that is set stays set. *)
Lemma stopTracking_leaves_other_timers (w : World) (id : nat) :
  In id (timers (host w)) -> trackingInterval (globals w) <> Some id ->
  step (stopTracking w) (TimerFires id) = Some (tick (stopTracking w)).
Proof.
  intros Hin Hother. cbn [step].
  assert (In id (timers (host (stopTracking w)))) as Hstill.
  { unfold stopTracking.
    destruct (trackingInterval (globals w)) as [id' |]; cbn; [| exact Hin].
    apply in_in_remove; [congruence | exact Hin]. }
  apply existsb_eqb_In in Hstill. rewrite Hstill. reflexivity.
Qed.

(** Such a timer exists when the start button is clicked twice before
    the first position arrives: both calls of [startTracking] go on to
    [setInterval], the second id replaces the first in
    [trackingInterval], and the first timer outlives [stopTracking]. *)
Lemma double_start_leaves_a_timer :
  run initial [ClickSuggestion central; ClickStart; ClickStart;
               PositionFound 1 (at_central 10); PositionFound 2 (at_central 10);
               ClickStop]
    = Some stopped_once /\
  isTracking (globals stopped_once) = false /\
  trackingInterval (globals stopped_once) = None /\
  step stopped_once (TimerFires 1) = Some (tick stopped_once).
Proof.
  assert (step starting ClickStart = Some starting_twice) as H2 by reflexivity.
  assert (step starting_twice (PositionFound 1 (at_central 10))
          = Some tracking_once) as H3 by at_station.
  assert (step tracking_once (PositionFound 2 (at_central 10))
          = Some tracking_twice) as H4 by at_station.
  assert (step tracking_twice ClickStop = Some stopped_once) as H5 by reflexivity.
  split.
  - cbn [run]. rewrite step_selected, step_starting, H2, H3, H4, H5. reflexivity.
  - repeat split.
Qed.

(** C2 as stated fails.  A station is selected and tracking started at
    the station; the timer fires and its position request is in flight
    when [stopTracking] runs.  The timer is cleared and [isTracking] is
    false, and yet the position that arrives afterwards is stored,
    redraws the display and fires the alert calls again. *)
Lemma late_position_alerts_after_stop :
  run initial [ClickSuggestion central; ClickStart;
               PositionFound 1 (at_central 10); TimerFires 1; ClickStop]
    = Some stopped /\
  isTracking (globals stopped) = false /\
  timers (host stopped) = [] /\
  userLocation (globals stopped) = Some (at_central 10) /\
  step stopped (PositionFound 2 (at_central 25)) = Some late /\
  userLocation (globals late) = Some (at_central 25) /\
  hasAlerted (globals late) = true /\
  log late = log stopped ++ [UpdateUserMarker] ++ alert_effects ++ [DrawRouteLine].
Proof.
  split.
  - cbn [run].
    rewrite step_selected, step_starting, step_tracking, step_polling,
      step_stopped.
    reflexivity.
  - do 3 (split; [reflexivity |]).
    split; [exact step_late |].
    do 2 (split; [reflexivity |]). reflexivity.
Qed.

(** C2, as the code has it.  [stopTracking] clears the interval timer
    it recorded at once, so that timer fires no more, and resets
    [isTracking], [hasAlerted] and [trackingInterval]; a position
    request of a tick that is in flight at that moment is not
    discarded: when its position arrives it is stored in
    [userLocation] and fed to [updateDistanceDisplay] ([isTracking] is
    not looked at), and within the alert distance the alert calls are
    made. *)
Theorem stopTracking_keeps_request_in_flight
    (w : World) (req : nat) (pos : Location) (st : Station) :
  lookup req (requests (host w)) = Some AfterTick ->
  selectedStation (globals w) = Some st ->
  let d := distance_to st pos in
  let arrived := stopTracking w |> settle req |> position_found pos in
  (isTracking (globals (stopTracking w)) = false /\
   hasAlerted (globals (stopTracking w)) = false /\
   trackingInterval (globals (stopTracking w)) = None /\
   forall id, trackingInterval (globals w) = Some id ->
              step (stopTracking w) (TimerFires id) = None) /\
  step (stopTracking w) (PositionFound req pos) =
    Some (updateDistanceDisplay d arrived) /\
  userLocation (globals (updateDistanceDisplay d arrived)) = Some pos /\
  isTracking (globals (updateDistanceDisplay d arrived)) = false /\
  (d <= ALERT_DISTANCE ->
   hasAlerted (globals (updateDistanceDisplay d arrived)) = true /\
   log (updateDistanceDisplay d arrived) =
     log (stopTracking w) ++ [UpdateUserMarker] ++ alert_effects ++ [DrawRouteLine]).
Proof.
  intros Hreq Hst d arrived.
  destruct (stopTracking_frame w) as (Hreqs & Hstation & _).
  destruct (stopTracking_resets w) as (Htr & Hal & Hint).
  destruct (updateDistanceDisplay_frame d arrived) as (_ & Hloc & _ & _ & Htr').
  split; [| split; [| split; [| split]]].
  - repeat split; try assumption. intros id. apply stopTracking_clears.
  - apply tick_position_applied.
    + rewrite Hreqs. exact Hreq.
    + rewrite Hstation. exact Hst.
  - rewrite Hloc. reflexivity.
  - rewrite Htr'. exact Htr.
  - intros Hd.
    destruct (updateDistanceDisplay_enter d arrived Hd) as [Hlog Hlatch];
      [exact Hal |].
    split; [exact Hlatch |]. rewrite Hlog. cbn [arrived log position_found settle
      upd_globals upd_host emit]. rewrite <- app_assoc. reflexivity.
Qed.

Lemma stopTracking_keeps_request_in_flight_witness :
  step (stopTracking polling) (PositionFound 2 (at_central 25)) =
    Some (updateDistanceDisplay (distance_to central (at_central 25))
            (stopTracking polling |> settle 2 |> position_found (at_central 25))).
Proof.
  apply (stopTracking_keeps_request_in_flight polling 2 (at_central 25) central);
    reflexivity.
Defined.

(** *** Invariants of the session *)

Lemma updateDistanceDisplay_dom (d : R) (w : World) :
  alertActive (dom (updateDistanceDisplay d w)) = Rleb d ALERT_DISTANCE /\
  alertZoneShown (dom (updateDistanceDisplay d w)) = Rleb d ALERT_DISTANCE /\
  resultsShown (dom (updateDistanceDisplay d w)) = true /\
  trackingShown (dom (updateDistanceDisplay d w)) = trackingShown (dom w).
Proof.
  unfold updateDistanceDisplay.
  destruct (Rleb d ALERT_DISTANCE); cbn;
    [destruct (hasAlerted (globals w)) |]; cbn; auto.
Qed.

(** A request of [startTracking] or of a tick is in flight only once a
    station is selected. *)
Lemma pending_has_station (w : World) (req : nat) (k : Continuation) :
  reachable w -> lookup req (requests (host w)) = Some k -> k <> AfterLoad ->
  exists st, selectedStation (globals w) = Some st.
Proof.
  intros Hreach Hk Hload.
  destruct (selectedStation (globals w)) as [st |] eqn:Hst; [eauto |].
  destruct (no_station_idle w Hreach Hst) as (_ & _ & _ & Hreq).
  destruct (lookup_Forall _ _ _ _ Hreq Hk) as [r Hr]. cbn in Hr. contradiction.
Qed.



Lemma updateDistanceDisplay_no_error (d : R) (w : World) :
  filter is_error (log (updateDistanceDisplay d w)) = filter is_error (log w).
Proof.
  unfold updateDistanceDisplay.
  destruct (Rleb d ALERT_DISTANCE); cbn;
    [destruct (hasAlerted (globals w)) |]; cbn;
    rewrite ?filter_app; cbn; rewrite ?app_nil_r; reflexivity.
Qed.

(** X12.  In a world the page can get to, a position that arrives never
    ends in an error: whichever call was waiting for it, no
    [console.error] and no error status is added, so the distance
    computation of a resumed [startTracking] or tick never reads a
    [null] location or station. *)
Theorem position_found_no_error (w w' : World) (req : nat) (pos : Location) :
  reachable w -> step w (PositionFound req pos) = Some w' ->
  filter is_error (log w') = filter is_error (log w).
Proof.
  intros Hreach Hstep. cbn [step] in Hstep.
  destruct (lookup req (requests (host w))) as [k |] eqn:Hk; [| discriminate].
  injection Hstep as <-. destruct k.
  - cbn. rewrite filter_app. cbn. apply app_nil_r.
  - destruct (pending_has_station w req AfterStart Hreach Hk) as [st Hst];
      [discriminate |].
    unfold startTracking_resumed, measure_and_display.
    cbn -[updateDistanceDisplay]. rewrite Hst. cbn -[updateDistanceDisplay].
    rewrite !filter_app, updateDistanceDisplay_no_error. cbn.
    rewrite filter_app. cbn. rewrite !app_nil_r. reflexivity.
  - destruct (pending_has_station w req AfterTick Hreach Hk) as [st Hst];
      [discriminate |].
    unfold tick_resumed, measure_and_display.
    cbn -[updateDistanceDisplay]. rewrite Hst.
    rewrite updateDistanceDisplay_no_error. cbn.
    rewrite filter_app. cbn. apply app_nil_r.
Qed.

Lemma position_found_no_error_witness :
  filter is_error
    (log (updateDistanceDisplay (distance_to central (at_central 25))
            (polling |> settle 2 |> position_found (at_central 25)))) =
  filter is_error (log polling).
Proof.
  apply (position_found_no_error polling _ 2 (at_central 25) polling_reachable).
  apply tick_position_applied; reflexivity.
Defined.

(** *** Starting *)

Lemma lookup_drop_other (r1 r2 : nat) (l : list (nat * Continuation)) :
  r1 <> r2 -> lookup r2 (drop r1 l) = lookup r2 l.
Proof.
  intros Hne. induction l as [| [r k] l IH]; cbn; [reflexivity |].
  destruct (Nat.eqb_spec r r1) as [-> | Hr1].
  - destruct (Nat.eqb_spec r1 r2); [contradiction | reflexivity].
  - cbn. rewrite IH. reflexivity.
Qed.

(** [startTracking] from its [await] on, a station being selected. *)
Lemma startTracking_resumed_spec (w : World) (req : nat) (pos : Location)
    (st : Station) :
  lookup req (requests (host w)) = Some AfterStart ->
  selectedStation (globals w) = Some st ->
  exists w',
    step w (PositionFound req pos) = Some w' /\
    selectedStation (globals w') = Some st /\
    userLocation (globals w') = Some pos /\
    isTracking (globals w') = true /\
    trackingInterval (globals w') = Some (nextTimer (host w)) /\
    hasAlerted (globals w') = Rleb (distance_to st pos) ALERT_DISTANCE /\
    dom w' = {| alertActive := Rleb (distance_to st pos) ALERT_DISTANCE;
                alertZoneShown := Rleb (distance_to st pos) ALERT_DISTANCE;
                resultsShown := true; trackingShown := true |} /\
    host w' = {| timers := nextTimer (host w) :: timers (host w);
                 nextTimer := S (nextTimer (host w));
                 requests := drop req (requests (host w));
                 nextRequest := nextRequest (host w) |}.
Proof.
  intros Hreq Hst. cbn [step]. rewrite Hreq.
  unfold startTracking_resumed, measure_and_display.
  cbn -[updateDistanceDisplay]. rewrite Hst. cbn -[updateDistanceDisplay].
  eexists. split; [reflexivity |]. cbn -[updateDistanceDisplay].
  fold (distance_to st pos).
  match goal with |- context [updateDistanceDisplay ?d ?x] =>
    destruct (updateDistanceDisplay_frame d x) as (Hhost & Hloc & Hsel & Hint & Htr);
    destruct (updateDistanceDisplay_dom d x) as (Ha & Hz & Hr & Ht);
    pose proof (updateDistanceDisplay_latch d x) as Hlatch;
    destruct (dom (updateDistanceDisplay d x)) as [a z r t];
    rewrite Hhost, Hloc, Hsel, Htr, Hlatch
  end.
  cbn in Ha, Hz, Hr, Ht |- *. subst a z r t. rewrite Hst.
  repeat split.
Qed.

(** X13.  The two ways [startTracking] can end once a station is
    selected.  When the position request fails, the error message is
    shown and nothing else changes: the globals, the document and the
    timers are as before the click.  When the position arrives, it is
    stored, [isTracking] is set, the tracking and result sections are
    displayed, a new timer is set and recorded in [trackingInterval],
    and the alert latch and the alert display are on exactly when the
    first distance is within the alert distance. *)
Theorem startTracking_outcomes (w : World) (st : Station) :
  selectedStation (globals w) = Some st ->
  (forall message, exists w',
     run w [ClickStart; PositionError (nextRequest (host w)) message] = Some w' /\
     globals w' = globals w /\ dom w' = dom w /\
     timers (host w') = timers (host w) /\
     requests (host w') = requests (host w) /\
     log w' = log w ++ [ArmAlertSound; RequestNotificationPermission;
                        ShowStatus message Error]) /\
  (forall pos, exists w',
     run w [ClickStart; PositionFound (nextRequest (host w)) pos] = Some w' /\
     userLocation (globals w') = Some pos /\
     isTracking (globals w') = true /\
     trackingInterval (globals w') = Some (nextTimer (host w)) /\
     timers (host w') = nextTimer (host w) :: timers (host w) /\
     requests (host w') = requests (host w) /\
     hasAlerted (globals w') = Rleb (distance_to st pos) ALERT_DISTANCE /\
     dom w' = {| alertActive := Rleb (distance_to st pos) ALERT_DISTANCE;
                 alertZoneShown := Rleb (distance_to st pos) ALERT_DISTANCE;
                 resultsShown := true; trackingShown := true |}).
Proof.
  intros Hst.
  assert (startTracking w =
          w |> emit ArmAlertSound |> emit RequestNotificationPermission
            |> getUserLocation AfterStart) as Hstart
    by (unfold startTracking; rewrite Hst; reflexivity).
  split.
  - intros message. cbn [run step]. rewrite Hstart. cbn. rewrite !Nat.eqb_refl.
    cbn. eexists. split; [reflexivity |].
    cbn. rewrite <- !app_assoc, ?Nat.eqb_refl. repeat split.
  - intros pos. cbn [run]. change (step w ClickStart) with (Some (startTracking w)).
    cbv iota beta.
    destruct (startTracking_resumed_spec (startTracking w) (nextRequest (host w))
                pos st)
      as (w' & Hstep & _ & Hloc & Htr & Hint & Hlatch & Hdom & Hhost).
    + rewrite Hstart. cbn. rewrite Nat.eqb_refl. reflexivity.
    + rewrite Hstart. exact Hst.
    + rewrite Hstep. exists w'. split; [reflexivity |].
      rewrite Hhost, Hstart in *. cbn in *. rewrite Nat.eqb_refl.
      repeat split; assumption.
Qed.

Lemma startTracking_outcomes_witness :
  exists w',
    run selected [ClickStart; PositionError 1 "timeout"] = Some w' /\
    globals w' = globals selected /\ dom w' = dom selected /\
    timers (host w') = timers (host selected) /\
    requests (host w') = requests (host selected) /\
    log w' = log selected ++ [ArmAlertSound; RequestNotificationPermission;
                              ShowStatus "timeout" Error].
Proof.
  exact (proj1 (startTracking_outcomes selected central eq_refl) "timeout").
Defined.

(** X14.  Two clicks on the start button before the first position
    arrives leave a timer behind.  Both calls go on to [setInterval];
    the id of the second replaces the first in [trackingInterval], so
    [stopTracking] clears the second only: afterwards [isTracking] is
    false and [trackingInterval] is [null], and the first timer still
    fires. *)
Theorem double_start_leaks_timer
    (w : World) (st : Station) (r1 r2 : nat) (p1 p2 : Location) :
  selectedStation (globals w) = Some st ->
  r1 <> r2 ->
  lookup r1 (requests (host w)) = Some AfterStart ->
  lookup r2 (requests (host w)) = Some AfterStart ->
  exists w',
    run w [PositionFound r1 p1; PositionFound r2 p2; ClickStop] = Some w' /\
    isTracking (globals w') = false /\
    trackingInterval (globals w') = None /\
    step w' (TimerFires (nextTimer (host w))) = Some (tick w').
Proof.
  intros Hst Hne Hr1 Hr2. cbn [run].
  destruct (startTracking_resumed_spec w r1 p1 st Hr1 Hst)
    as (w1 & -> & Hst1 & _ & _ & _ & _ & _ & Hhost1).
  destruct (startTracking_resumed_spec w1 r2 p2 st)
    as (w2 & -> & _ & _ & _ & Hint2 & _ & _ & Hhost2).
  - rewrite Hhost1. cbn. rewrite lookup_drop_other by exact Hne. exact Hr2.
  - exact Hst1.
  - cbn [step]. exists (stopTracking w2).
    destruct (stopTracking_resets w2) as (Htr & _ & Hint).
    split; [reflexivity |]. split; [exact Htr |]. split; [exact Hint |].
    apply stopTracking_leaves_other_timers.
    + rewrite Hhost2, Hhost1. cbn. auto.
    + rewrite Hint2, Hhost1. cbn. intros [= H]. lia.
Qed.

Lemma double_start_leaks_timer_witness :
  exists w',
    run starting_twice [PositionFound 1 (at_central 10);
                        PositionFound 2 (at_central 10); ClickStop] = Some w' /\
    isTracking (globals w') = false /\
    trackingInterval (globals w') = None /\
    step w' (TimerFires (nextTimer (host starting_twice))) = Some (tick w').
Proof.
  apply (double_start_leaks_timer starting_twice central 1 2);
    [reflexivity | lia | reflexivity | reflexivity].
Defined.

(** *** The alert display *)

(** X15.  The alert display and the latch.  In every world the page can
    get to, the [alert-active] class and the alert zone are on or off
    together, and they are on whenever [hasAlerted] is true.
    [stopTracking] resets [hasAlerted] and leaves the display as it is,
    so the page can show the alert while not tracking. *)
Theorem alert_display_and_latch :
  (forall w, reachable w ->
     alertActive (dom w) = alertZoneShown (dom w) /\
     (hasAlerted (globals w) = true -> alertActive (dom w) = true)) /\
  (forall w, alertActive (dom (stopTracking w)) = alertActive (dom w) /\
             alertZoneShown (dom (stopTracking w)) = alertZoneShown (dom w) /\
             resultsShown (dom (stopTracking w)) = resultsShown (dom w)) /\
  (exists w, reachable w /\ isTracking (globals w) = false /\
             hasAlerted (globals w) = false /\ alertActive (dom w) = true).
Proof.
  assert (forall d x,
            alertActive (dom (updateDistanceDisplay d x)) =
              alertZoneShown (dom (updateDistanceDisplay d x)) /\
            (hasAlerted (globals (updateDistanceDisplay d x)) = true ->
             alertActive (dom (updateDistanceDisplay d x)) = true)) as Hudd.
  { intros d x. destruct (updateDistanceDisplay_dom d x) as (-> & -> & _).
    rewrite updateDistanceDisplay_latch. auto. }
  assert (forall w, alertActive (dom (stopTracking w)) = alertActive (dom w) /\
             alertZoneShown (dom (stopTracking w)) = alertZoneShown (dom w) /\
             resultsShown (dom (stopTracking w)) = resultsShown (dom w)) as Hstop.
  { intros w. unfold stopTracking.
    destruct (trackingInterval (globals w)); cbn; auto. }
  split; [| split; [exact Hstop |]].
  - induction 1 as [| w w' e Hreach IH Hstep].
    + cbn. split; [reflexivity | discriminate].
    + destruct e as [st | | | id | req pos | req message]; cbn [step] in Hstep.
      * injection Hstep as <-. exact IH.
      * injection Hstep as <-. unfold startTracking.
        destruct (selectedStation (globals w)); exact IH.
      * injection Hstep as <-.
        destruct (Hstop w) as (-> & -> & _).
        destruct (stopTracking_resets w) as (_ & -> & _).
        split; [apply IH | discriminate].
      * destruct (existsb (Nat.eqb id) (timers (host w))); [| discriminate].
        injection Hstep as <-. exact IH.
      * destruct (lookup req (requests (host w))) as [k |]; [| discriminate].
        injection Hstep as <-. destruct k.
        -- exact IH.
        -- unfold startTracking_resumed, measure_and_display.
           cbn -[updateDistanceDisplay].
           destruct (selectedStation (globals w)); [| exact IH].
           cbn -[updateDistanceDisplay]. apply Hudd.
        -- unfold tick_resumed, measure_and_display.
           cbn -[updateDistanceDisplay].
           destruct (selectedStation (globals w)); [apply Hudd | exact IH].
      * destruct (lookup req (requests (host w))) as [k |]; [| discriminate].
        injection Hstep as <-. destruct k; exact IH.
  - exists stopped. split; [| repeat split].
    exact (reachable_step polling stopped ClickStop polling_reachable step_stopped).
Qed.

(** X16.  The latch is not reset when another station is selected.
    While [hasAlerted] is true, selecting a station and polling a
    position within the alert distance of it makes none of the alert
    calls for the new station, although the alert display is on. *)
Theorem new_station_keeps_latch
    (w : World) (id : nat) (pos : Location) (st' : Station) :
  In id (timers (host w)) ->
  hasAlerted (globals w) = true ->
  distance_to st' pos <= ALERT_DISTANCE ->
  exists w',
    run w [ClickSuggestion st'; TimerFires id;
           PositionFound (nextRequest (host w)) pos] = Some w' /\
    selectedStation (globals w') = Some st' /\
    userLocation (globals w') = Some pos /\
    alertActive (dom w') = true /\
    filter is_alert (log w') = filter is_alert (log w).
Proof.
  intros Hid Hlatch Hnear.
  change (run w [ClickSuggestion st'; TimerFires id;
                 PositionFound (nextRequest (host w)) pos])
    with (polled id pos (selectStation st' w)).
  rewrite (polled_spec id pos st' (selectStation st' w) Hid eq_refl).
  eexists. split; [reflexivity |].
  match goal with |- context [updateDistanceDisplay ?d ?x] =>
    destruct (updateDistanceDisplay_frame d x) as (_ & -> & -> & _);
    destruct (updateDistanceDisplay_dom d x) as (-> & _);
    destruct (updateDistanceDisplay_stay d x Hnear Hlatch) as (-> & _)
  end.
  split; [reflexivity |]. split; [reflexivity |].
  split; [apply Rleb_true; exact Hnear |].
  cbn. rewrite !filter_app. cbn. rewrite !app_nil_r. reflexivity.
Qed.

Lemma new_station_keeps_latch_witness :
  let north := {| name := "North"; address := "North, Haifa";
                  station_lat := 33; station_lng := 35 |} in
  let pos := {| lat := 33; lng := 35; accuracy := 10 |} in
  exists w',
    run tracking [ClickSuggestion north; TimerFires 1; PositionFound 2 pos]
      = Some w' /\
    selectedStation (globals w') = Some north /\
    userLocation (globals w') = Some pos /\
    alertActive (dom w') = true /\
    filter is_alert (log w') = filter is_alert (log tracking).
Proof.
  intros north pos.
  apply (new_station_keeps_latch tracking 1 pos north).
  - simpl. auto.
  - reflexivity.
  - unfold distance_to. cbn [lat lng station_lat station_lng north pos].
    rewrite GeoFacts.calculateDistance_self. unfold ALERT_DISTANCE. lra.
Defined.

End TrackerFacts.

(** ** The suggestion list *)

Module SuggestFacts.

Import Search Suggest.

Local Open Scope string_scope.
Local Open Scope list_scope.

(** *** Splitting at commas *)

Lemma split_nonempty (sep : ascii) (s : string) : split sep s <> [].
Proof.
  destruct s as [| c r]; cbn; [discriminate |].
  destruct (Ascii.eqb c sep); [discriminate |].
  destruct (split sep r); discriminate.
Qed.

Lemma concat_cons (sep : ascii) (c : ascii) (p : string) (ps : list string) :
  String.concat (String sep "") (String c p :: ps) =
  String c (String.concat (String sep "") (p :: ps)).
Proof. destruct ps; reflexivity. Qed.

Lemma join_split (sep : ascii) (s : string) :
  join (String sep "") (split sep s) = s.
Proof.
  unfold join. induction s as [| c r IH]; [reflexivity |].
  cbn [split]. destruct (Ascii.eqb_spec c sep) as [-> | Hc].
  - pose proof (split_nonempty sep r) as Hne.
    destruct (split sep r) as [| p ps]; [contradiction |].
    change (String.concat (String sep "") ("" :: p :: ps))
      with (String sep (String.concat (String sep "") (p :: ps))).
    rewrite IH. reflexivity.
  - pose proof (split_nonempty sep r) as Hne.
    destruct (split sep r) as [| p ps]; [contradiction |].
    rewrite concat_cons, IH. reflexivity.
Qed.

Lemma split_head (sep : ascii) (s : string) :
  Format.has_char sep (nth 0 (split sep s) "") = false /\
  (s = nth 0 (split sep s) "" \/
   exists rest, s = (nth 0 (split sep s) "" ++ String sep rest)%string).
Proof.
  induction s as [| c r IH]; [cbn; auto |].
  cbn [split]. destruct (Ascii.eqb_spec c sep) as [-> | Hc].
  - cbn. split; [reflexivity |]. right. exists r. reflexivity.
  - pose proof (split_nonempty sep r) as Hne.
    destruct (split sep r) as [| p ps]; [contradiction |].
    cbn [nth] in *. destruct IH as (Hp & Hr). split.
    + cbn. rewrite Hp, orb_false_r. apply Ascii.eqb_neq. congruence.
    + destruct Hr as [-> | (rest & ->)]; [left; reflexivity |].
      right. exists rest. reflexivity.
Qed.

Lemma split_no_sep (sep : ascii) (s : string) :
  Format.has_char sep s = false -> split sep s = [s].
Proof.
  induction s as [| c r IH]; [reflexivity |].
  cbn. intros H. apply orb_false_elim in H. destruct H as (Hc & Hr).
  rewrite Ascii.eqb_sym, Hc, (IH Hr). reflexivity.
Qed.

(** X17.  The name of a station is the text of [display_name] before
    its first comma.  For a result with a [display_name], the name of
    its suggestion and the name of the station [selectStation] records
    are the same string, it holds no comma, and [display_name] is that
    name or that name, a comma and more; the station's address is the
    whole [display_name] and its coordinates are the result's; the
    suggestion's address is the whole [display_name] when that holds no
    comma, and is empty only when [display_name] is. *)
Theorem station_name_before_first_comma (r : SearchResult) (d : string) :
  display_name r = Some d ->
  exists item st,
    suggestion_of r = Some item /\ selectedStation_of r = Some st /\
    suggestion_name item = Tracker.name st /\
    Format.has_char "," (Tracker.name st) = false /\
    (d = Tracker.name st \/
     exists rest, d = (Tracker.name st ++ "," ++ rest)%string) /\
    Tracker.address st = d /\
    Tracker.station_lat st = lat r /\ Tracker.station_lng st = lon r /\
    (Format.has_char "," d = false -> suggestion_address item = d) /\
    (suggestion_address item = "" -> d = "").
Proof.
  intros Hd. unfold suggestion_of, selectedStation_of. rewrite Hd.
  do 2 eexists. do 2 (split; [reflexivity |]).
  cbn [suggestion_name suggestion_address Tracker.name Tracker.address
       Tracker.station_lat Tracker.station_lng].
  destruct (split_head "," d) as (Hname & Hsplit).
  split; [reflexivity |]. split; [exact Hname |]. split; [exact Hsplit |].
  do 3 (split; [reflexivity |]). split.
  - intros Hno. rewrite (split_no_sep "," d Hno). reflexivity.
  - unfold or_else.
    destruct (String.eqb_spec (join ", " (slice_1_3 (split "," d))) "");
      [auto | intros H; contradiction].
Qed.

Lemma station_name_before_first_comma_witness :
  let r := {| display_name := Some "Central Bus Station, Levinsky, Tel Aviv";
              type := Some "bus_station"; class := Some "amenity";
              lat := 32; lon := 34 |} in
  exists item st,
    suggestion_of r = Some item /\ selectedStation_of r = Some st /\
    suggestion_name item = Tracker.name st /\
    Format.has_char "," (Tracker.name st) = false /\
    ("Central Bus Station, Levinsky, Tel Aviv" = Tracker.name st \/
     exists rest, "Central Bus Station, Levinsky, Tel Aviv"
                  = (Tracker.name st ++ "," ++ rest)%string) /\
    Tracker.address st = "Central Bus Station, Levinsky, Tel Aviv" /\
    Tracker.station_lat st = lat r /\ Tracker.station_lng st = lon r /\
    (Format.has_char "," "Central Bus Station, Levinsky, Tel Aviv" = false ->
     suggestion_address item = "Central Bus Station, Levinsky, Tel Aviv") /\
    (suggestion_address item = "" ->
     "Central Bus Station, Levinsky, Tel Aviv" = "").
Proof.
  intros r. exact (station_name_before_first_comma r _ eq_refl).
Defined.

(** *** The search button *)

Lemma appendItems_named (results : list SearchResult) (ui : SearchUi) :
  (forall r, In r results -> display_name r <> None) ->
  exists its,
    appendItems results ui = Normal (set_items (items ui ++ its) ui) /\
    map Some its = map suggestion_of results /\
    map suggestion_result its = results.
Proof.
  revert ui. induction results as [| r results IH]; intros ui Hnames.
  - exists []. cbn. rewrite app_nil_r. destruct ui; auto.
  - cbn [appendItems]. unfold suggestion_of at 1.
    destruct (display_name r) as [d |] eqn:Hd;
      [| exfalso; apply (Hnames r); simpl; auto].
    match goal with |- context [appendItems results (set_items (_ ++ [?i]) ui)] =>
      set (item := i) end.
    destruct (IH (set_items (items ui ++ [item]) ui)) as (its & -> & Hmap & Hres);
      [intros r' Hr'; apply Hnames; simpl; auto |].
    exists (item :: its). cbn [map set_items items loading disabled shown].
    rewrite <- app_assoc, <- Hmap, Hres. unfold suggestion_of. rewrite Hd.
    repeat split.
Qed.

(** X18.  The click on the search button always runs to its end.  With
    an empty query it shows the "enter a name" error and does nothing
    else: no request is made and the document is as it was.  Otherwise
    no result the search returns makes [displaySuggestions] throw, so
    the button is enabled again and not loading, the list holds one
    item for each result, in their order, and it is shown exactly when
    there is a result. *)
Theorem search_click_completes
    (fetch : string -> FetchOutcome) (query : string) (ui : SearchUi) :
  (query = "" ->
   search_click fetch query ui = (Normal ui, [ShowStatus enter_name_msg Error])) /\
  (query <> "" ->
   exists its,
     search_click fetch query ui =
       (Normal {| loading := false; disabled := false; items := its;
                  shown := match its with [] => false | _ => true end |},
        snd (searchBusStation fetch query)) /\
     map Some its = map suggestion_of (fst (searchBusStation fetch query)) /\
     map suggestion_result its = fst (searchBusStation fetch query)).
Proof.
  split.
  - intros ->. reflexivity.
  - intros Hq. unfold search_click.
    destruct (String.eqb_spec query ""); [contradiction |].
    pose proof (SearchFacts.searchBusStation_display_names fetch query) as Hnames.
    destruct (searchBusStation fetch query) as [results log]. cbn [fst snd] in *.
    unfold displaySuggestions. destruct results as [| r results].
    + exists []. repeat split.
    + destruct (appendItems_named (r :: results) (set_items [] (set_button true ui))
                  Hnames) as (its & -> & Hmap & Hres).
      exists its. cbn. destruct its as [| i its]; [discriminate |].
      repeat split; assumption.
Qed.

Lemma search_click_completes_witness :
  search_click (fun _ => FetchRejected) ""
    {| loading := false; disabled := false; items := []; shown := false |} =
  (Normal {| loading := false; disabled := false; items := []; shown := false |},
   [ShowStatus enter_name_msg Error]).
Proof.
  apply (proj1 (search_click_completes (fun _ => FetchRejected) "" _)).
  reflexivity.
Defined.

End SuggestFacts.

(** ** The layers of the map *)

Module MapViewFacts.

Import MapView.

Local Open Scope list_scope.
Local Open Scope R_scope.

(** *** The variables and the map agree *)

Lemma on_map_below (p : Page) (i : nat) (x : Layer) :
  well_formed p -> layers p i = Some x -> (i < nextLayer p)%nat.
Proof.
  intros (_ & Hnext & _) Hi.
  destruct (Nat.lt_ge_cases i (nextLayer p)) as [Hlt | Hge]; [exact Hlt |].
  rewrite (Hnext i Hge) in Hi. discriminate.
Qed.

(** The facts of [well_formed p] at every id in sight. *)
Lemma slots (p : Page) :
  well_formed p ->
  (forall i, userMarker p = Some i ->
     exists u, userLocation p = Some u /\
               layers p i = Some (Marker (location_latlng u))) /\
  (forall i, stationMarker p = Some i ->
     exists st, selectedStation p = Some st /\
                layers p i = Some (Marker (station_latlng st))) /\
  (forall i, alertCircle p = Some i ->
     exists st, selectedStation p = Some st /\
                layers p i = Some (Circle (station_latlng st)
                                     (Tracker.ALERT_DISTANCE * 1000))) /\
  (forall i, routeLine p = Some i ->
     exists a b, layers p i = Some (Polyline a b)).
Proof. intros (_ & _ & _ & _ & Hum & Hsm & Hac & Hrl). auto. Qed.

(** Case analysis on the ids compared, the facts of [well_formed p] at
    the ids in sight, and the goals these settle. *)
Ltac eqb_cases :=
  repeat match goal with
  | H : context [Nat.eqb ?a ?b] |- _ => destruct (Nat.eqb_spec a b); subst
  | |- context [Nat.eqb ?a ?b] => destruct (Nat.eqb_spec a b); subst
  end.

Ltac slot_facts p Hwf :=
  let Hum := fresh "Hum" in let Hsm := fresh "Hsm" in
  let Hac := fresh "Hac" in let Hrl := fresh "Hrl" in
  destruct (slots p Hwf) as (Hum & Hsm & Hac & Hrl);
  pose proof (proj1 Hwf);
  repeat match goal with
  | H : Some _ = Some _ |- _ => injection H as H; subst
  | H : userMarker p = Some ?i |- _ =>
      lazymatch goal with
      | _ : layers p i = Some (Marker (location_latlng _)) |- _ => fail
      | _ => destruct (Hum i H) as (? & ? & ?)
      end
  | H : stationMarker p = Some ?i |- _ =>
      lazymatch goal with
      | _ : layers p i = Some (Marker (station_latlng _)) |- _ => fail
      | _ => destruct (Hsm i H) as (? & ? & ?)
      end
  | H : alertCircle p = Some ?i |- _ =>
      lazymatch goal with
      | _ : layers p i = Some (Circle _ _) |- _ => fail
      | _ => destruct (Hac i H) as (? & ? & ?)
      end
  | H : routeLine p = Some ?i |- _ =>
      lazymatch goal with
      | _ : layers p i = Some (Polyline _ _) |- _ => fail
      | _ => destruct (Hrl i H) as (? & ? & ?)
      end
  end;
  repeat match goal with
  | H : layers p ?i = Some ?x |- _ =>
      lazymatch goal with
      | _ : (i < nextLayer p)%nat |- _ => fail
      | _ => pose proof (on_map_below p i x Hwf H)
      end
  end;
  clear Hum Hsm Hac Hrl.

Ltac finish p Hwf :=
  repeat match goal with
  | H : layers p ?i = Some _ |- context [layers p ?i] => rewrite H
  end;
  try solve
    [ congruence | lia | eauto 8 | exfalso; congruence | exfalso; lia
    | eexists; split; [eassumption | congruence]
    | eexists; split; [reflexivity | congruence]
    | match goal with
      | H1 : userMarker p = Some ?i, H2 : stationMarker p = Some ?i |- _ =>
          exfalso;
          exact (proj1 (proj2 (proj2 (proj2 Hwf))) i H1 H2)
      end
    | match goal with
      | H : layers p ?i = Some ?x |- _ \/ _ =>
          destruct (proj1 (proj2 (proj2 Hwf)) i x H) as [? | [? | [? | [? | ?]]]];
          solve [auto 8 | congruence | exfalso; congruence]
      end
    | match goal with
      | |- layers p ?i = None =>
          apply (proj1 (proj2 Hwf)); lia
      end ].

Ltac invariant p Hwf :=
  unfold well_formed; cbn -[Nat.eqb];
  repeat split; unfold not; intros; eqb_cases; slot_facts p Hwf; finish p Hwf.

Lemma initMap_well_formed : well_formed initMap.
Proof.
  unfold well_formed. cbn -[Nat.eqb].
  repeat split; unfold not; intros; eqb_cases; try congruence; auto; lia.
Qed.

Lemma position_found_well_formed (pos : Tracker.Location) (p : Page) :
  well_formed p -> well_formed (position_found pos p).
Proof.
  intros Hwf.
  pose proof (on_map_below p 0 Tiles Hwf (proj1 Hwf)) as Hpos.
  unfold position_found, updateUserMarker. cbn -[Nat.eqb].
  destruct (userMarker p) as [id |] eqn:Eum in |- *.
  - invariant p Hwf.
  - destruct (selectedStation p) eqn:Est in |- *; invariant p Hwf.
Qed.

Lemma selectStation_well_formed (st : Tracker.Station) (p : Page) :
  well_formed p -> well_formed (selectStation st p).
Proof.
  intros Hwf.
  pose proof (on_map_below p 0 Tiles Hwf (proj1 Hwf)) as Hpos.
  unfold selectStation. cbn -[Nat.eqb].
  destruct (stationMarker p) as [sm |] eqn:Esm in |- *;
    cbn -[Nat.eqb];
    destruct (alertCircle p) as [ac |] eqn:Eac in |- *;
    cbn -[Nat.eqb];
    destruct (userLocation p) as [u |] eqn:Eu in |- *;
    invariant p Hwf.
Qed.

Lemma drawRouteLine_well_formed (p : Page) :
  well_formed p -> well_formed (drawRouteLine p).
Proof.
  intros Hwf.
  pose proof (on_map_below p 0 Tiles Hwf (proj1 Hwf)) as Hpos.
  unfold drawRouteLine.
  destruct (userLocation p) as [u |] eqn:Eu in |- *; [| exact Hwf].
  destruct (selectedStation p) as [st |] eqn:Est in |- *; [| exact Hwf].
  destruct (routeLine p) as [rl |] eqn:Erl in |- *; invariant p Hwf.
Qed.
Lemma calls_well_formed (cs : list Call) : well_formed (calls cs).
Proof.
  unfold calls. generalize initMap initMap_well_formed.
  induction cs as [| c cs IH]; intros p Hp; [exact Hp |].
  cbn [fold_left]. apply IH. destruct c; cbn [call].
  - apply position_found_well_formed. exact Hp.
  - apply selectStation_well_formed. exact Hp.
  - apply drawRouteLine_well_formed. exact Hp.
Qed.

(** X19.  Whatever positions arrive, stations are selected and routes
    are drawn, the map holds no layer the script has lost track of: a
    circle on the map is the object of [alertCircle], centred on the
    selected station with a radius of [ALERT_DISTANCE * 1000] metres; a
    polyline is the object of [routeLine]; a marker is the object of
    [userMarker] at the user's location or the object of
    [stationMarker] at the selected station; and the tile layer is the
    one of [initMap].  So there is at most one of each. *)
Theorem map_layers_are_the_variables (cs : list Call) :
  (forall i c r, layers (calls cs) i = Some (Circle c r) ->
     alertCircle (calls cs) = Some i /\
     exists st, selectedStation (calls cs) = Some st /\
                c = station_latlng st /\ r = Tracker.ALERT_DISTANCE * 1000) /\
  (forall i a b, layers (calls cs) i = Some (Polyline a b) ->
     routeLine (calls cs) = Some i) /\
  (forall i x, layers (calls cs) i = Some (Marker x) ->
     (userMarker (calls cs) = Some i /\
      exists u, userLocation (calls cs) = Some u /\ x = location_latlng u) \/
     (stationMarker (calls cs) = Some i /\
      exists st, selectedStation (calls cs) = Some st /\ x = station_latlng st)) /\
  (forall i, layers (calls cs) i = Some Tiles -> i = 0%nat).
Proof.
  pose proof (calls_well_formed cs) as Hwf.
  set (p := calls cs) in *.
  destruct Hwf as (H0 & _ & Hown & _ & Hum & Hsm & Hac & Hrl).
  assert (forall i x, layers p i = Some x ->
            (i = 0%nat /\ x = Tiles) \/
            (userMarker p = Some i /\
             exists u, userLocation p = Some u /\ x = Marker (location_latlng u)) \/
            (stationMarker p = Some i /\
             exists st, selectedStation p = Some st /\
                        x = Marker (station_latlng st)) \/
            (alertCircle p = Some i /\
             exists st, selectedStation p = Some st /\
                        x = Circle (station_latlng st)
                              (Tracker.ALERT_DISTANCE * 1000)) \/
            (routeLine p = Some i /\ exists a b, x = Polyline a b)) as Hkind.
  { intros i x Hi.
    destruct (Hown i x Hi) as [-> | [H | [H | [H | H]]]].
    - left. split; [reflexivity | congruence].
    - right; left. split; [exact H |].
      destruct (Hum i H) as (u & Hu & Hl). exists u. split; [exact Hu | congruence].
    - right; right; left. split; [exact H |].
      destruct (Hsm i H) as (st & Hst & Hl). exists st. split; [exact Hst | congruence].
    - right; right; right; left. split; [exact H |].
      destruct (Hac i H) as (st & Hst & Hl). exists st. split; [exact Hst | congruence].
    - right; right; right; right. split; [exact H |].
      destruct (Hrl i H) as (a & b & Hl). exists a, b. congruence. }
  split; [| split; [| split]].
  - intros i c r Hi.
    destruct (Hkind i _ Hi)
      as [(_ & E) | [(_ & u & _ & E) | [(_ & st & _ & E) | [(H & st & Hst & E)
         | (_ & a & b & E)]]]]; try discriminate.
    injection E as -> ->. eauto.
  - intros i a b Hi.
    destruct (Hkind i _ Hi)
      as [(_ & E) | [(_ & u & _ & E) | [(_ & st & _ & E) | [(_ & st & _ & E)
         | (H & _)]]]]; try discriminate.
    exact H.
  - intros i x Hi.
    destruct (Hkind i _ Hi)
      as [(_ & E) | [(H & u & Hu & E) | [(H & st & Hst & E) | [(_ & st & _ & E)
         | (_ & a & b & E)]]]]; try discriminate.
    + injection E as ->. left. eauto.
    + injection E as ->. right. eauto.
  - intros i Hi.
    destruct (Hkind i _ Hi)
      as [(H & _) | [(_ & u & _ & E) | [(_ & st & _ & E) | [(_ & st & _ & E)
         | (_ & a & b & E)]]]]; try discriminate.
    exact H.
Qed.

(** *** The route line *)

(** X20.  The route line.  [drawRouteLine] does nothing while the
    location or the station is missing; otherwise it takes the previous
    line off the map and puts on one from the user's location to the
    selected station.  Selecting another station leaves the line on the
    map as it is: until the next distance update it still ends at the
    station selected before. *)
Theorem routeLine_drawn_and_kept (p : Page) :
  well_formed p ->
  ((userLocation p = None \/ selectedStation p = None) -> drawRouteLine p = p) /\
  (forall u st, userLocation p = Some u -> selectedStation p = Some st ->
     routeLine (drawRouteLine p) = Some (nextLayer p) /\
     layers (drawRouteLine p) (nextLayer p) =
       Some (Polyline (location_latlng u) (station_latlng st)) /\
     forall j, routeLine p = Some j -> layers (drawRouteLine p) j = None) /\
  (forall st' i, routeLine p = Some i ->
     routeLine (selectStation st' p) = Some i /\
     layers (selectStation st' p) i = layers p i).
Proof.
  intros Hwf. split; [| split].
  - unfold drawRouteLine. intros [-> | Hst]; [reflexivity |].
    rewrite Hst. destruct (userLocation p); reflexivity.
  - intros u st Hu Hst. unfold drawRouteLine. rewrite Hu, Hst.
    destruct (routeLine p) as [rl |] eqn:Erl in |- *; cbn -[Nat.eqb];
      rewrite ?Nat.eqb_refl; (split; [reflexivity |]); (split; [reflexivity |]);
      intros j Hj; eqb_cases; slot_facts p Hwf; finish p Hwf.
  - intros st' i Hi. unfold selectStation. cbn -[Nat.eqb].
    destruct (stationMarker p) as [sm |] eqn:Esm in |- *;
      cbn -[Nat.eqb];
      destruct (alertCircle p) as [ac |] eqn:Eac in |- *;
      cbn -[Nat.eqb];
      destruct (userLocation p) as [u |] eqn:Eu in |- *;
      cbn -[Nat.eqb];
      (split; [exact Hi |]); eqb_cases; slot_facts p Hwf; finish p Hwf.
Qed.

Lemma routeLine_drawn_and_kept_witness :
  let home := {| Tracker.lat := 32; Tracker.lng := 34; Tracker.accuracy := 10 |} in
  let north := {| Tracker.name := "North"; Tracker.address := "North, Haifa";
                  Tracker.station_lat := 33; Tracker.station_lng := 35 |} in
  let p := calls [Located home; Selected Tracker.central; RouteDrawn] in
  routeLine (selectStation north p) = Some 4%nat /\
  layers (selectStation north p) 4%nat = layers p 4%nat.
Proof.
  intros home north p.
  apply (proj2 (proj2 (routeLine_drawn_and_kept p (calls_well_formed _)))).
  reflexivity.
Defined.

End MapViewFacts.

(** ** The alert sound *)

Module SoundFacts.

Import Sound.

Local Open Scope string_scope.
Local Open Scope list_scope.

Lemma step_muted (s s' : State) (e : Event) :
  muted s -> step s e = Some s' ->
  match e with
  | Settled id true => handler_of id s <> Some Arming
  | _ => True
  end ->
  muted s' /\ exists l, plays s' = plays s ++ l /\ Forall (fun v => v = 0%Q) l.
Proof.
  intros (a & Ha & Hv) Hstep Hnot. destruct e as [| | id fulfilled]; cbn in Hstep.
  - injection Hstep as <-. unfold armAlertSound. rewrite Ha. cbn. split.
    + eexists. split; reflexivity.
    + exists [0%Q]. split; [reflexivity | repeat constructor].
  - injection Hstep as <-. unfold playAlertSound. rewrite Ha. cbn. split.
    + exists a. auto.
    + exists [volume a]. split; [reflexivity | repeat constructor; exact Hv].
  - destruct (handler_of id s) as [h |] eqn:Hh; [| discriminate].
    injection Hstep as <-. split.
    + destruct h, fulfilled; try congruence; exists a; cbn; auto.
    + exists []. rewrite app_nil_r. split; [| constructor].
      destruct h, fulfilled; reflexivity.
Qed.

Lemma run_muted (es : list Event) (s s' : State) :
  muted s -> run s es = Some s' -> arming_never_fulfilled s es ->
  muted s' /\ exists l, plays s' = plays s ++ l /\ Forall (fun v => v = 0%Q) l.
Proof.
  revert s. induction es as [| e es IH]; intros s Hm Hrun Hnever.
  - injection Hrun as <-. split; [exact Hm |]. exists [].
    rewrite app_nil_r. split; [reflexivity | constructor].
  - cbn [run arming_never_fulfilled] in Hrun, Hnever.
    destruct Hnever as (Hnot & Hnever).
    destruct (step s e) as [s1 |] eqn:Hstep; [| discriminate].
    destruct (step_muted s s1 e Hm Hstep Hnot) as (Hm1 & l1 & Hl1 & Hz1).
    destruct (IH s1 Hm1 Hrun Hnever) as (Hm' & l & Hl & Hz).
    split; [exact Hm' |]. exists (l1 ++ l).
    rewrite Hl, Hl1, app_assoc. split; [reflexivity |].
    apply Forall_app. auto.
Qed.

(** X21.  Only the fulfilled promise of [armAlertSound] turns the
    volume up again.  Once [armAlertSound] has run on the audio
    element, and for as long as no promise of it is fulfilled, the
    element stays at volume 0 whatever else happens, further arming,
    alerts, rejections: [playAlertSound] never sets the volume, so every
    [play()] of that time, the alerts' included, is made at volume 0. *)
Theorem volume_restored_only_by_arming (s s' : State) (es : list Event) :
  alertSound s <> None ->
  run (armAlertSound s) es = Some s' ->
  arming_never_fulfilled (armAlertSound s) es ->
  muted s' /\
  exists l, plays s' = plays s ++ 0%Q :: l /\ Forall (fun v => v = 0%Q) l.
Proof.
  intros Hsome Hrun Hnever.
  destruct (alertSound s) as [a |] eqn:Ha; [| contradiction].
  assert (muted (armAlertSound s)) as Hm
    by (unfold armAlertSound; rewrite Ha; eexists; split; reflexivity).
  destruct (run_muted es _ s' Hm Hrun Hnever) as (Hm' & l & Hl & Hz).
  split; [exact Hm' |]. exists l. split; [| exact Hz].
  rewrite Hl. unfold armAlertSound. rewrite Ha. cbn.
  rewrite <- app_assoc. reflexivity.
Qed.

(** Arming is rejected; the alert that follows plays at volume 0. *)
Lemma volume_restored_only_by_arming_witness :
  let s' := {| alertSound := Some {| src := Some "alert/a01.mp3"; volume := 0 |};
               promises := []; nextPromise := 2; plays := [0%Q; 0%Q];
               log := [ConsoleLog; ConsoleWarn; ConsoleLog] |} in
  muted s' /\
  exists l, plays s' = plays (initAlertSound (fun _ => true) loaded) ++ 0%Q :: l /\
            Forall (fun v => v = 0%Q) l.
Proof.
  intros s'.
  apply (volume_restored_only_by_arming (initAlertSound (fun _ => true) loaded) s'
           [Settled 0 false; Alert; Settled 1 true]).
  - discriminate.
  - reflexivity.
  - cbn. repeat split. discriminate.
Defined.

End SoundFacts.
